(** * Console-viewer: the scan pipeline and the history queries of server.ts

    A shallow embedding of [server.ts]: the [scan-url] socket handler
    (launch, page callbacks, navigation, screenshot, insert, completion
    notice, close), the [scans] table, and the two history routes.

    The automation engine, the socket and the SQLite store are the
    handler's environment.  One run of the handler is driven by a
    [Scenario]: the completion of every awaited engine call, the page
    events that fire while a call is pending, and the clock values read.
    Strings are [string]; numbers are [Z]; the table is a list of rows in
    rowid order. *)

From Stdlib Require Import List String Ascii ZArith NArith Lia Bool Arith.
From Stdlib Require Import Permutation Sorted.
From Stdlib Require Import DecimalString DecimalFacts DecimalN.
Import ListNotations.

Local Open Scope string_scope.
Local Open Scope Z_scope.

(** ** Entries built by the page callbacks *)

Module LogEntry.
(** [{ type, text, args, timestamp }]; the [pageerror] callback and the
    [catch] block build the object without [args]. *)
Record t := mk
  { type : string;
    text : string;
    args : option (list string);
    timestamp : string }.
End LogEntry.

Module NetEntry.
(** [{ url, status, method, type, errorText, timestamp }]; only the
    [requestfailed] callback sets [errorText]. *)
Record t := mk
  { url : string;
    status : Z;
    method : string;
    type : string;
    errorText : option string;
    timestamp : string }.
End NetEntry.

(** What the engine hands to each [page.on] callback, with the value
    [new Date().toISOString()] has when the callback runs. *)
Inductive PageEvent :=
| Console (msg_type msg_text : string) (msg_args : list string) (now : string)
| PageError (err : string) (now : string)
| Response (url : string) (status : Z) (method resourceType : string)
           (now : string)
| RequestFailed (url method resourceType : string) (failure : option string)
                (now : string).

(** A thrown value; the handler reads only [error.message]. *)
Record Exn := { message : string }.

Inductive Completion (A : Type) :=
| Normal (a : A)
| Throw (e : Exn).
Arguments Normal {A} a.
Arguments Throw {A} e.

(** ** The [scans] table *)

Module ScanRow.
(** One row of [scans]; [screenshot] is a nullable TEXT column. *)
Record t := mk
  { id : Z;
    url : string;
    timestamp : string;
    logs : string;
    network : string;
    screenshot : option string;
    error_count : Z;
    warn_count : Z }.
End ScanRow.

(** [scans] holds the rows in rowid order; [sqlite_sequence] is the largest
    rowid the AUTOINCREMENT key has handed out. *)
Record Db := { scans : list ScanRow.t; sqlite_sequence : Z }.

Definition empty_db : Db := {| scans := []; sqlite_sequence := 0 |}.

Definition max_rowid (rows : list ScanRow.t) : Z :=
  fold_right Z.max 0 (map ScanRow.id rows).

(** AUTOINCREMENT: one more than the largest rowid ever handed out.
    This is the store's rowid as long as it is at most 2^53: beyond,
    [info.lastInsertRowid], a JS number, no longer holds every rowid
    exactly, and at 2^63-1 the store refuses the insert, which is an
    exception of [stmt.run] ([insert_result]).  What is stated of the
    rowid sent to the client is stated within that range. *)
Definition next_rowid (db : Db) : Z :=
  1 + Z.max (sqlite_sequence db) (max_rowid (scans db)).

(** ** [JSON.stringify] and [JSON.parse]

    The platform's serializer and parser, for the values the handler
    stores: objects (key order kept), arrays, strings, integers, booleans
    and [null].  [stringify] writes no white space, escapes the quote, the
    backslash and the control characters the way the platform does;
    [parse] reads that syntax back ([None] stands for a thrown
    [SyntaxError]).  Numbers are integers written in decimal, as the
    platform writes every integer below 10^21; fractions, exponents,
    white space between tokens and escapes of code units above 255 are
    outside this model. *)

Module JSON.

Set Warnings "-register-all".

(** A parsed value; an object keeps its members in insertion order. *)
Inductive value :=
| Null
| Bool (b : bool)
| Num (n : Z)
| Str (s : string)
| Arr (items : list value)
| Obj (members : list (string * value)).

(** The quotation mark and the reverse solidus. *)
Definition dquote : ascii := ascii_of_N 34.
Definition backslash : ascii := ascii_of_N 92.

(** Lower-case hexadecimal digit of [n < 16], and the value of a digit. *)
Definition hex_digit (n : N) : ascii :=
  (if n <? 10 then ascii_of_N (48 + n) else ascii_of_N (87 + n))%N.

Definition hex_val (c : ascii) : option N :=
  (let n := N_of_ascii c in
   if (48 <=? n) && (n <=? 57) then Some (n - 48)
   else if (97 <=? n) && (n <=? 102) then Some (n - 87)
   else if (65 <=? n) && (n <=? 70) then Some (n - 55)
   else None)%N.

(** How a quoted string shows one character. *)
Definition escape_char (c : ascii) : string :=
  (let n := N_of_ascii c in
   if n =? 34 then String backslash (String dquote EmptyString)
   else if n =? 92 then String backslash (String backslash EmptyString)
   else if n =? 8 then String backslash "b"
   else if n =? 12 then String backslash "f"
   else if n =? 10 then String backslash "n"
   else if n =? 13 then String backslash "r"
   else if n =? 9 then String backslash "t"
   else if n <? 32 then
     String backslash
       (String "u" (String "0" (String "0"
          (String (hex_digit (n / 16)) (String (hex_digit (n mod 16))
             EmptyString)))))
   else String c EmptyString)%N.

Fixpoint escape (s : string) : string :=
  match s with
  | EmptyString => EmptyString
  | String c s' => escape_char c ++ escape s'
  end.

Definition quote (s : string) : string :=
  String dquote (escape s ++ String dquote EmptyString).

(** Integers in decimal, without leading zeros. *)
Definition string_of_N (n : N) : string :=
  NilEmpty.string_of_uint (N.to_uint n).

Definition string_of_Z (z : Z) : string :=
  match z with
  | Zneg p => String "-" (string_of_N (Npos p))
  | _ => string_of_N (Z.to_N z)
  end.

(** The texts of [l] with [sep] between neighbours. *)
Fixpoint join (sep : string) (l : list string) : string :=
  match l with
  | [] => EmptyString
  | x :: l' =>
      match l' with
      | [] => x
      | _ => x ++ sep ++ join sep l'
      end
  end.

(** [JSON.stringify(v)] *)
Fixpoint stringify (v : value) : string :=
  match v with
  | Null => "null"
  | Bool true => "true"
  | Bool false => "false"
  | Num n => string_of_Z n
  | Str s => quote s
  | Arr items => "[" ++ join "," (map stringify items) ++ "]"
  | Obj members =>
      "{" ++ join ","
               (map (fun kv => quote (fst kv) ++ ":" ++ stringify (snd kv))
                    members) ++ "}"
  end.

(** The character a two-character escape stands for. *)
Definition unescape (e : ascii) : option ascii :=
  (let n := N_of_ascii e in
   if n =? 34 then Some dquote
   else if n =? 92 then Some backslash
   else if n =? 47 then Some "/"%char
   else if n =? 98 then Some (ascii_of_N 8)
   else if n =? 102 then Some (ascii_of_N 12)
   else if n =? 110 then Some (ascii_of_N 10)
   else if n =? 114 then Some (ascii_of_N 13)
   else if n =? 116 then Some (ascii_of_N 9)
   else None)%N.

(** The code unit of a [\u] escape. *)
Definition hex4 (a b c d : ascii) : option N :=
  match hex_val a, hex_val b, hex_val c, hex_val d with
  | Some x, Some y, Some z, Some w => Some (((x * 16 + y) * 16 + z) * 16 + w)%N
  | _, _, _, _ => None
  end.

Definition cons_char (c : ascii) (r : option (string * string)) :=
  match r with
  | Some (s, rest) => Some (String c s, rest)
  | None => None
  end.

(** The characters of a string up to its closing quote, and the rest of
    the text; an unescaped control character is a syntax error. *)
Fixpoint parse_chars (s : string) : option (string * string) :=
  match s with
  | EmptyString => None
  | String c s1 =>
      if Ascii.eqb c dquote then Some (EmptyString, s1)
      else if Ascii.eqb c backslash then
        match s1 with
        | EmptyString => None
        | String e s2 =>
            if Ascii.eqb e "u" then
              match s2 with
              | String h1 (String h2 (String h3 (String h4 s3))) =>
                  match hex4 h1 h2 h3 h4 with
                  | Some n =>
                      if (n <? 256)%N
                      then cons_char (ascii_of_N n) (parse_chars s3)
                      else None
                  | None => None
                  end
              | _ => None
              end
            else
              match unescape e with
              | Some c' => cons_char c' (parse_chars s2)
              | None => None
              end
        end
      else if (N_of_ascii c <? 32)%N then None
      else cons_char c (parse_chars s1)
  end.

(** A number: an optional minus sign, then decimal digits without a
    leading zero. *)
Definition is_digit (c : ascii) : bool :=
  ((48 <=? N_of_ascii c) && (N_of_ascii c <=? 57))%N.

Fixpoint span_digits (s : string) : string * string :=
  match s with
  | EmptyString => (EmptyString, EmptyString)
  | String c s' =>
      if is_digit c
      then let (ds, rest) := span_digits s' in (String c ds, rest)
      else (EmptyString, s)
  end.

Definition parse_N (s : string) : option (N * string) :=
  let (ds, rest) := span_digits s in
  match ds with
  | EmptyString => None
  | _ =>
      match NilEmpty.uint_of_string ds with
      | Some d =>
          if Decimal.uint_eq_dec (Decimal.unorm d) d
          then Some (N.of_uint d, rest)
          else None
      | None => None
      end
  end.

Definition parse_number (s : string) : option (Z * string) :=
  match s with
  | EmptyString => None
  | String c s' =>
      if Ascii.eqb c "-" then
        match parse_N s' with
        | Some (n, rest) => Some (- Z.of_N n, rest)
        | None => None
        end
      else
        match parse_N s with
        | Some (n, rest) => Some (Z.of_N n, rest)
        | None => None
        end
  end.

(** [null], [true] and [false] after their first letter. *)
Fixpoint strip_prefix (w s : string) : option string :=
  match w with
  | EmptyString => Some s
  | String a w' =>
      match s with
      | String b s' => if Ascii.eqb a b then strip_prefix w' s' else None
      | EmptyString => None
      end
  end.

Definition literal (w : string) (v : value) (s : string)
  : option (value * string) :=
  match strip_prefix w s with
  | Some rest => Some (v, rest)
  | None => None
  end.

(** The elements of an array and the members of an object, given the
    parser [pv] of one value; [n] bounds their number. *)
Section Sequences.
Variable pv : string -> option (value * string).

Fixpoint parse_items (n : nat) (s : string) : option (list value * string) :=
  match n with
  | O => None
  | S n' =>
      match pv s with
      | Some (v, String c rest) =>
          if Ascii.eqb c ","
          then match parse_items n' rest with
               | Some (vs, r) => Some (v :: vs, r)
               | None => None
               end
          else if Ascii.eqb c "]" then Some ([v], rest)
          else None
      | _ => None
      end
  end.

Fixpoint parse_members (n : nat) (s : string)
  : option (list (string * value) * string) :=
  match n with
  | O => None
  | S n' =>
      match s with
      | String q s1 =>
          if Ascii.eqb q dquote then
            match parse_chars s1 with
            | Some (k, String c s2) =>
                if Ascii.eqb c ":" then
                  match pv s2 with
                  | Some (v, String d rest) =>
                      if Ascii.eqb d ","
                      then match parse_members n' rest with
                           | Some (ms, r) => Some ((k, v) :: ms, r)
                           | None => None
                           end
                      else if Ascii.eqb d "}" then Some ([(k, v)], rest)
                      else None
                  | _ => None
                  end
                else None
            | _ => None
            end
          else None
      | EmptyString => None
      end
  end.
End Sequences.

(** One value at the head of [s], and the rest of the text; [fuel]
    bounds the nesting depth. *)
Fixpoint parse_value (fuel : nat) (s : string) : option (value * string) :=
  match fuel with
  | O => None
  | S fuel' =>
      match s with
      | EmptyString => None
      | String c s1 =>
          if is_digit c || Ascii.eqb c "-" then
            match parse_number s with
            | Some (n, rest) => Some (Num n, rest)
            | None => None
            end
          else if Ascii.eqb c "n" then literal "ull" Null s1
          else if Ascii.eqb c "t" then literal "rue" (Bool true) s1
          else if Ascii.eqb c "f" then literal "alse" (Bool false) s1
          else if Ascii.eqb c dquote then
            match parse_chars s1 with
            | Some (str, rest) => Some (Str str, rest)
            | None => None
            end
          else if Ascii.eqb c "[" then
            match s1 with
            | EmptyString => None
            | String c1 rest1 =>
                if Ascii.eqb c1 "]" then Some (Arr [], rest1)
                else
                  match parse_items (parse_value fuel') fuel' s1 with
                  | Some (vs, rest) => Some (Arr vs, rest)
                  | None => None
                  end
            end
          else if Ascii.eqb c "{" then
            match s1 with
            | EmptyString => None
            | String c1 rest1 =>
                if Ascii.eqb c1 "}" then Some (Obj [], rest1)
                else
                  match parse_members (parse_value fuel') fuel' s1 with
                  | Some (ms, rest) => Some (Obj ms, rest)
                  | None => None
                  end
            end
          else None
      end
  end.

(** Number of nodes of a value: the fuel [parse_value] needs for it. *)
Fixpoint size (v : value) : nat :=
  match v with
  | Arr items => S (list_sum (map size items))
  | Obj members => S (list_sum (map (fun kv => size (snd kv)) members))
  | _ => 1%nat
  end.

(** [JSON.parse]: the whole text must be one value.  It reads the texts
    [stringify] writes, which is what the handler stores: no white space
    between tokens, integers for numbers.  On other JSON texts it answers
    [None] where [JSON.parse] would read them, so nothing is concluded
    here from a [None]. *)
Definition parse (s : string) : option value :=
  match parse_value (S (String.length s)) s with
  | Some (v, EmptyString) => Some v
  | _ => None
  end.

(** One [key:value] member as [stringify] writes it. *)
Definition member (kv : string * value) : string :=
  quote (fst kv) ++ ":" ++ stringify (snd kv).

(** What may follow a number: anything but a digit. *)
Definition no_digit_head (s : string) : Prop :=
  match s with
  | EmptyString => True
  | String c _ => is_digit c = false
  end.

(** [pv] reads back the text of [v], whatever follows it. *)
Definition reads (pv : string -> option (value * string)) (v : value) : Prop :=
  forall r, no_digit_head r -> pv (stringify v ++ r) = Some (v, r).

End JSON.

(** ** Messages pushed on the socket *)

Inductive CompletePayload :=
| Success (scanId : Z)
| Error (message : string).

Inductive Emit :=
| ConsoleLog (logEntry : LogEntry.t)
| NetworkLog (netEntry : NetEntry.t)
| Screenshot (screenshotBase64 : string)
| ScanComplete (payload : CompletePayload).

(** A launched browser, named so that closes can be told apart. *)
Record Browser := { browser_id : nat }.

(** ** State of one handler run

    The handler's locals ([browser], [logs], [networkLogs],
    [screenshotBase64]) and the part of the world it acts on: what has been
    emitted on the socket, the store, and the browsers closed. *)
Record HState := mkHState
  { browser : option Browser;
    logs : list LogEntry.t;
    networkLogs : list NetEntry.t;
    screenshotBase64 : string;
    out : list Emit;
    db : Db;
    closed : list Browser }.

Definition init_state (d : Db) : HState :=
  {| browser := None; logs := []; networkLogs := [];
     screenshotBase64 := EmptyString; out := []; db := d; closed := [] |}.

(** ** A state and exception monad for the handler body *)

Definition M (A : Type) : Type := HState -> Completion A * HState.

Definition ret {A} (a : A) : M A := fun st => (Normal a, st).

Definition bind {A B} (m : M A) (k : A -> M B) : M B :=
  fun st =>
    match m st with
    | (Normal a, st') => k a st'
    | (Throw e, st') => (Throw e, st')
    end.

Declare Scope scan_scope.
Delimit Scope scan_scope with scan.
Notation "x <- m ;; k" := (bind m (fun x => k))
  (at level 61, m at next level, right associativity) : scan_scope.
Notation "m ;; k" := (bind m (fun _ => k))
  (at level 61, right associativity) : scan_scope.

(** [try { body } catch (error) { handler error } finally { cleanup }]:
    [cleanup] runs on every path, and when it throws its exception
    replaces the completion reached so far. *)
Definition try_catch_finally {A} (body : M A) (handler : Exn -> M A)
    (cleanup : M unit) : M A :=
  fun st =>
    let '(c, st1) :=
      match body st with
      | (Normal a, st') => (Normal a, st')
      | (Throw e, st') => handler e st'
      end in
    match cleanup st1 with
    | (Normal _, st2) => (c, st2)
    | (Throw e, st2) => (Throw e, st2)
    end.

(** [await p]: the promise settles the way the scenario says. *)
Definition await {A} (r : Completion A) : M A := fun st => (r, st).

Definition get {A} (f : HState -> A) : M A := fun st => (Normal (f st), st).

Definition set_browser (b : Browser) : M unit := fun st =>
  (Normal tt,
   mkHState (Some b) (logs st) (networkLogs st) (screenshotBase64 st)
            (out st) (db st) (closed st)).

Definition set_screenshotBase64 (s : string) : M unit := fun st =>
  (Normal tt,
   mkHState (browser st) (logs st) (networkLogs st) s
            (out st) (db st) (closed st)).

(** [logs.push(logEntry)] *)
Definition logs_push (l : LogEntry.t) : M unit := fun st =>
  (Normal tt,
   mkHState (browser st) (logs st ++ [l]) (networkLogs st)
            (screenshotBase64 st) (out st) (db st) (closed st)).

(** [networkLogs.push(netEntry)] *)
Definition networkLogs_push (n : NetEntry.t) : M unit := fun st =>
  (Normal tt,
   mkHState (browser st) (logs st) (networkLogs st ++ [n])
            (screenshotBase64 st) (out st) (db st) (closed st)).

(** [socket.emit(...)] *)
Definition emit (m : Emit) : M unit := fun st =>
  (Normal tt,
   mkHState (browser st) (logs st) (networkLogs st) (screenshotBase64 st)
            (out st ++ [m]) (db st) (closed st)).

(** [browser.close()] is called: the call is recorded before it settles. *)
Definition call_close (b : Browser) : M unit := fun st =>
  (Normal tt,
   mkHState (browser st) (logs st) (networkLogs st) (screenshotBase64 st)
            (out st) (db st) (closed st ++ [b])).

(** ** The four page callbacks *)

(** [x || d] on a possibly missing string: the empty string is falsy. *)
Definition or_default (x : option string) (d : string) : string :=
  match x with
  | Some (String c s) => String c s
  | _ => d
  end.

Definition console_entry (msg_type msg_text : string) (msg_args : list string)
    (now : string) : LogEntry.t :=
  {| LogEntry.type := msg_type;
     LogEntry.text := msg_text;
     LogEntry.args := Some msg_args;
     LogEntry.timestamp := now |}.

Definition pageerror_entry (err now : string) : LogEntry.t :=
  {| LogEntry.type := "error";
     LogEntry.text := err;
     LogEntry.args := None;
     LogEntry.timestamp := now |}.

Definition response_entry (url : string) (status : Z)
    (method resourceType now : string) : NetEntry.t :=
  {| NetEntry.url := url;
     NetEntry.status := status;
     NetEntry.method := method;
     NetEntry.type := resourceType;
     NetEntry.errorText := None;
     NetEntry.timestamp := now |}.

Definition requestfailed_entry (url method resourceType : string)
    (failure : option string) (now : string) : NetEntry.t :=
  {| NetEntry.url := url;
     NetEntry.status := 0;
     NetEntry.method := method;
     NetEntry.type := resourceType;
     NetEntry.errorText := Some (or_default failure "Failed");
     NetEntry.timestamp := now |}.

(** [netEntry.url.startsWith("data:")] *)
Definition is_data_url (u : string) : bool := String.prefix "data:" u.

Definition on_console (msg_type msg_text : string) (msg_args : list string)
    (now : string) : M unit :=
  (let logEntry := console_entry msg_type msg_text msg_args now in
   logs_push logEntry ;;
   emit (ConsoleLog logEntry))%scan.

Definition on_pageerror (err now : string) : M unit :=
  (let logEntry := pageerror_entry err now in
   logs_push logEntry ;;
   emit (ConsoleLog logEntry))%scan.

Definition on_response (url : string) (status : Z)
    (method resourceType now : string) : M unit :=
  (let netEntry := response_entry url status method resourceType now in
   if negb (is_data_url (NetEntry.url netEntry)) then
     networkLogs_push netEntry ;;
     emit (NetworkLog netEntry)
   else ret tt)%scan.

Definition on_requestfailed (url method resourceType : string)
    (failure : option string) (now : string) : M unit :=
  (let netEntry := requestfailed_entry url method resourceType failure now in
   if negb (is_data_url (NetEntry.url netEntry)) then
     networkLogs_push netEntry ;;
     emit (NetworkLog netEntry)
   else ret tt)%scan.

(** The page dispatches an event to the callback registered for it. *)
Definition on_event (ev : PageEvent) : M unit :=
  match ev with
  | Console ty tx ar now => on_console ty tx ar now
  | PageError err now => on_pageerror err now
  | Response u s m rt now => on_response u s m rt now
  | RequestFailed u m rt f now => on_requestfailed u m rt f now
  end.

(** The callbacks run, in order, for the events that fire while the
    handler is suspended in an [await]. *)
Fixpoint deliver (evs : list PageEvent) : M unit :=
  match evs with
  | [] => ret tt
  | ev :: evs' => (on_event ev ;; deliver evs')%scan
  end.

(** ** Stored form of the two buffers *)

(** The object [logEntry], keys in the order the handler writes them. *)
Definition json_of_logEntry (l : LogEntry.t) : JSON.value :=
  JSON.Obj
    ([("type", JSON.Str (LogEntry.type l));
      ("text", JSON.Str (LogEntry.text l))]
     ++ match LogEntry.args l with
        | Some a => [("args", JSON.Arr (map JSON.Str a))]
        | None => []
        end
     ++ [("timestamp", JSON.Str (LogEntry.timestamp l))]).

(** The object [netEntry], keys in the order the handler writes them. *)
Definition json_of_netEntry (n : NetEntry.t) : JSON.value :=
  JSON.Obj
    ([("url", JSON.Str (NetEntry.url n));
      ("status", JSON.Num (NetEntry.status n));
      ("method", JSON.Str (NetEntry.method n));
      ("type", JSON.Str (NetEntry.type n))]
     ++ match NetEntry.errorText n with
        | Some e => [("errorText", JSON.Str e)]
        | None => []
        end
     ++ [("timestamp", JSON.Str (NetEntry.timestamp n))]).

Definition json_of_logs (ls : list LogEntry.t) : JSON.value :=
  JSON.Arr (map json_of_logEntry ls).

Definition json_of_networkLogs (ns : list NetEntry.t) : JSON.value :=
  JSON.Arr (map json_of_netEntry ns).

(** ** The [scan-url] handler *)

(** What the environment does during one run. *)
Record Scenario := mkScenario
  { launch_result : Completion Browser;
    newPage_result : Completion unit;
    setViewport_result : Completion unit;
    goto_events : list PageEvent;
    goto_result : Completion unit;
    screenshot_events : list PageEvent;
    screenshot_result : Completion string;
    insert_result : Completion string;
    catch_clock : string;
    close_events : list PageEvent;
    close_result : Completion unit }.

(** [INSERT INTO scans (url, logs, network, screenshot, error_count,
    warn_count) VALUES (?, ?, ?, ?, ?, ?)]: [id] is the next rowid and
    [timestamp] defaults to [now], the store's CURRENT_TIMESTAMP. *)
Definition insert_scan (now url logs network screenshot : string)
    (errorCount warnCount : Z) (d : Db) : Z * Db :=
  let lastInsertRowid := next_rowid d in
  (lastInsertRowid,
   {| scans := scans d ++
               [ScanRow.mk lastInsertRowid url now logs network
                           (Some screenshot) errorCount warnCount];
      sqlite_sequence := lastInsertRowid |}).

(** [stmt.run(...)]: the store throws, or inserts and reports the rowid. *)
Definition stmt_run (r : Completion string)
    (url logs_text network_text shot : string)
    (errorCount warnCount : Z) : M Z := fun st =>
  match r with
  | Throw e => (Throw e, st)
  | Normal now =>
      let '(rowid, d') :=
        insert_scan now url logs_text network_text shot errorCount warnCount
                    (db st) in
      (Normal rowid,
       mkHState (browser st) (logs st) (networkLogs st) (screenshotBase64 st)
                (out st) d' (closed st))
  end.

(** [logs.filter(l => l.type === ty).length] *)
Definition count_type (ty : string) (ls : list LogEntry.t) : Z :=
  Z.of_nat (List.length
              (filter (fun l => String.eqb (LogEntry.type l) ty) ls)).

(** The entry the [catch] block emits. *)
Definition failure_entry (error : Exn) (now : string) : LogEntry.t :=
  {| LogEntry.type := "error";
     LogEntry.text := "Failed to load page: " ++ message error;
     LogEntry.args := None;
     LogEntry.timestamp := now |}.

Definition scan_url (sc : Scenario) (url : string) : M unit :=
  try_catch_finally
    (b <- await (launch_result sc) ;;
     set_browser b ;;
     await (newPage_result sc) ;;
     await (setViewport_result sc) ;;
     (* the four callbacks are registered here *)
     deliver (goto_events sc) ;;
     await (goto_result sc) ;;
     deliver (screenshot_events sc) ;;
     shot <- await (screenshot_result sc) ;;
     set_screenshotBase64 shot ;;
     shot <- get screenshotBase64 ;;
     emit (Screenshot shot) ;;
     ls <- get logs ;;
     let errorCount := count_type "error" ls in
     let warnCount := count_type "warn" ls in
     ns <- get networkLogs ;;
     info <- stmt_run (insert_result sc) url
               (JSON.stringify (json_of_logs ls))
               (JSON.stringify (json_of_networkLogs ns))
               shot errorCount warnCount ;;
     emit (ScanComplete (Success info)))%scan
    (fun error =>
       emit (ConsoleLog (failure_entry error (catch_clock sc))) ;;
       emit (ScanComplete (Error (message error))))%scan
    (b <- get browser ;;
     match b with
     | Some b =>
         call_close b ;;
         deliver (close_events sc) ;;
         await (close_result sc)
     | None => ret tt
     end)%scan.

(** One run of the handler on a fresh set of locals. *)
Definition run_scan (sc : Scenario) (url : string) (d : Db)
  : Completion unit * HState :=
  scan_url sc url (init_state d).

(** ** The history routes *)

Module Summary.
(** The columns [GET /api/history] selects. *)
Record t := mk
  { id : Z;
    url : string;
    timestamp : string;
    error_count : Z;
    warn_count : Z }.
End Summary.

Module Scan.
(** A row after [scan.logs] and [scan.network] were replaced by their
    parsed values. *)
Record t := mk
  { id : Z;
    url : string;
    timestamp : string;
    logs : JSON.value;
    network : JSON.value;
    screenshot : option string;
    error_count : Z;
    warn_count : Z }.
End Scan.

Definition summary_of (r : ScanRow.t) : Summary.t :=
  Summary.mk (ScanRow.id r) (ScanRow.url r) (ScanRow.timestamp r)
             (ScanRow.error_count r) (ScanRow.warn_count r).

(** [ORDER BY timestamp DESC]: TEXT values compared byte by byte.  Rows
    with equal timestamps, whose order SQL leaves open, stay in rowid
    order.  The column is declared DATETIME, so a text that looks like a
    number would be stored and ordered as a number; the texts
    CURRENT_TIMESTAMP writes ([YYYY-MM-DD HH:MM:SS]) do not, and it is for
    them that this is the store's order. *)
Fixpoint insert_desc (r : ScanRow.t) (l : list ScanRow.t) : list ScanRow.t :=
  match l with
  | [] => [r]
  | x :: l' =>
      if String.ltb (ScanRow.timestamp r) (ScanRow.timestamp x)
      then x :: insert_desc r l'
      else r :: l
  end.

Definition order_by_timestamp_desc (rows : list ScanRow.t) : list ScanRow.t :=
  fold_right insert_desc [] rows.

(** [SELECT id, url, timestamp, error_count, warn_count FROM scans
    ORDER BY timestamp DESC LIMIT 50] *)
Definition select_history (d : Db) : list Summary.t :=
  map summary_of (firstn 50 (order_by_timestamp_desc (scans d))).

(** [SELECT * FROM scans WHERE id = ?] *)
Definition select_scan (id : Z) (d : Db) : option ScanRow.t :=
  find (fun r => Z.eqb (ScanRow.id r) id) (scans d).

(** A statement throws when the store fails, else answers the query. *)
Definition db_query {A} (fault : option Exn) (q : Db -> A) (d : Db)
  : Completion A :=
  match fault with
  | Some e => Throw e
  | None => Normal (q d)
  end.

Inductive Body :=
| Summaries (scans : list Summary.t)
| FullScan (scan : Scan.t)
| ErrorBody (error : string).

(** What [res.status(...).json(...)] sends; [res.json] alone sends 200. *)
Record HttpResponse := { status : Z; body : Body }.

(** [app.get("/api/history", ...)] *)
Definition api_history (fault : option Exn) (d : Db) : HttpResponse :=
  match db_query fault select_history d with
  | Normal scans => {| status := 200; body := Summaries scans |}
  | Throw _ =>
      {| status := 500; body := ErrorBody "Failed to fetch history" |}
  end.

(** [app.get("/api/history/:id", ...)]; [id] is the route parameter as
    the store compares it with the integer key, see [api_history_route]
    for the route on the text. *)
Definition api_history_id (fault : option Exn) (id : Z) (d : Db) : HttpResponse :=
  let failed := {| status := 500; body := ErrorBody "Failed to fetch scan" |} in
  match db_query fault (select_scan id) d with
  | Normal (Some scan) =>
      match JSON.parse (ScanRow.logs scan) with
      | Some scan_logs =>
          match JSON.parse (ScanRow.network scan) with
          | Some scan_network =>
              {| status := 200;
                 body := FullScan
                   (Scan.mk (ScanRow.id scan) (ScanRow.url scan)
                            (ScanRow.timestamp scan) scan_logs scan_network
                            (ScanRow.screenshot scan)
                            (ScanRow.error_count scan)
                            (ScanRow.warn_count scan)) |}
          | None => failed
          end
      | None => failed
      end
  | Normal None => {| status := 404; body := ErrorBody "Scan not found" |}
  | Throw _ => failed
  end.

(** ** Vocabulary of the statements *)

(** What each callback appends to [logs] and [networkLogs] and what it
    emits, event by event. *)
Definition logs_of_event (ev : PageEvent) : list LogEntry.t :=
  match ev with
  | Console ty tx ar now => [console_entry ty tx ar now]
  | PageError err now => [pageerror_entry err now]
  | _ => []
  end.

Definition nets_of_event (ev : PageEvent) : list NetEntry.t :=
  match ev with
  | Response u s m rt now =>
      if is_data_url u then [] else [response_entry u s m rt now]
  | RequestFailed u m rt f now =>
      if is_data_url u then [] else [requestfailed_entry u m rt f now]
  | _ => []
  end.

Definition emits_of_event (ev : PageEvent) : list Emit :=
  map ConsoleLog (logs_of_event ev) ++ map NetworkLog (nets_of_event ev).

Definition captured_logs (evs : list PageEvent) : list LogEntry.t :=
  flat_map logs_of_event evs.

Definition captured_network (evs : list PageEvent) : list NetEntry.t :=
  flat_map nets_of_event evs.

Definition published (evs : list PageEvent) : list Emit :=
  flat_map emits_of_event evs.

(** The exception that ends the [try] block, if any: the first awaited
    call or store statement that throws. *)
Definition failure_of (sc : Scenario) : option Exn :=
  match launch_result sc with
  | Throw e => Some e
  | Normal _ =>
  match newPage_result sc with
  | Throw e => Some e
  | Normal _ =>
  match setViewport_result sc with
  | Throw e => Some e
  | Normal _ =>
  match goto_result sc with
  | Throw e => Some e
  | Normal _ =>
  match screenshot_result sc with
  | Throw e => Some e
  | Normal _ =>
  match insert_result sc with
  | Throw e => Some e
  | Normal _ => None
  end end end end end end.

(** The navigation was started: launch and page set-up succeeded. *)
Definition navigated (sc : Scenario) : bool :=
  match launch_result sc, newPage_result sc, setViewport_result sc with
  | Normal _, Normal _, Normal _ => true
  | _, _, _ => false
  end.

(** The events that fire before the [try] block ends. *)
Definition observed (sc : Scenario) : list PageEvent :=
  if navigated sc then
    goto_events sc ++
    match goto_result sc with
    | Normal _ => screenshot_events sc
    | Throw _ => []
    end
  else [].

(** The events that fire while [browser.close()] is pending. *)
Definition closing (sc : Scenario) : list PageEvent :=
  match launch_result sc with
  | Normal _ => close_events sc
  | Throw _ => []
  end.

(** The string [page.screenshot] resolved to, when the run got that far. *)
Definition screenshot_taken (sc : Scenario) : option string :=
  if navigated sc then
    match goto_result sc, screenshot_result sc with
    | Normal _, Normal shot => Some shot
    | _, _ => None
    end
  else None.

(** The row the run inserts, if it inserts one. *)
Definition inserted_row (sc : Scenario) (url : string) (d : Db)
  : option ScanRow.t :=
  match failure_of sc, screenshot_taken sc, insert_result sc with
  | None, Some shot, Normal now =>
      Some (ScanRow.mk (next_rowid d) url now
              (JSON.stringify (json_of_logs (captured_logs (observed sc))))
              (JSON.stringify
                 (json_of_networkLogs (captured_network (observed sc))))
              (Some shot)
              (count_type "error" (captured_logs (observed sc)))
              (count_type "warn" (captured_logs (observed sc))))
  | _, _, _ => None
  end.

(** What the run emits between the callbacks' messages of the [try]
    block and those of the close. *)
Definition verdict (sc : Scenario) (d : Db) : list Emit :=
  match screenshot_taken sc with
  | Some shot => [Screenshot shot]
  | None => []
  end ++
  match failure_of sc with
  | Some e =>
      [ConsoleLog (failure_entry e (catch_clock sc));
       ScanComplete (Error (message e))]
  | None => [ScanComplete (Success (next_rowid d))]
  end.

(** The rows of the store after the run that were not there before. *)
Definition new_rows (d : Db) (st : HState) : list ScanRow.t :=
  skipn (List.length (scans d)) (scans (db st)).

Definition is_scan_complete (m : Emit) : bool :=
  match m with
  | ScanComplete _ => true
  | _ => false
  end.

Definition is_screenshot (m : Emit) : bool :=
  match m with
  | Screenshot _ => true
  | _ => false
  end.

(** The network entries a run makes visible: pushed on the socket, left
    in the buffer, or stored in a row the run inserted. *)
Definition net_published (st : HState) (n : NetEntry.t) : Prop :=
  In (NetworkLog n) (out st).

Definition net_persisted (d : Db) (st : HState) (n : NetEntry.t) : Prop :=
  exists r ns,
    In r (new_rows d st) /\
    JSON.parse (ScanRow.network r) = Some (json_of_networkLogs ns) /\
    In n ns.

Definition net_seen (d : Db) (st : HState) (n : NetEntry.t) : Prop :=
  net_published st n \/ In n (networkLogs st) \/ net_persisted d st n.

(** All the events of a scenario. *)
Definition all_events (sc : Scenario) : list PageEvent :=
  goto_events sc ++ screenshot_events sc ++ close_events sc.
(** The completion and the state one run ends in, read off the scenario. *)
Definition final_completion (sc : Scenario) : Completion unit :=
  match launch_result sc with
  | Normal _ => close_result sc
  | Throw _ => Normal tt
  end.

Definition final_db (sc : Scenario) (url : string) (d : Db) : Db :=
  match inserted_row sc url d with
  | Some r => {| scans := scans d ++ [r]; sqlite_sequence := next_rowid d |}
  | None => d
  end.

Definition final_state (sc : Scenario) (url : string) (d : Db) : HState :=
  mkHState
    (match launch_result sc with Normal b => Some b | Throw _ => None end)
    (captured_logs (observed sc) ++ captured_logs (closing sc))
    (captured_network (observed sc) ++ captured_network (closing sc))
    (match screenshot_taken sc with Some s => s | None => EmptyString end)
    (published (observed sc) ++ verdict sc d ++ published (closing sc))
    (final_db sc url d)
    (match launch_result sc with Normal b => [b] | Throw _ => [] end).

(** [a] does not come before [b] in [ORDER BY timestamp DESC]. *)
Definition newer_or_equal (a b : string) : Prop := String.leb b a = true.

Definition row_order (a b : ScanRow.t) : Prop :=
  newer_or_equal (ScanRow.timestamp a) (ScanRow.timestamp b).

Definition summary_order (a b : Summary.t) : Prop :=
  newer_or_equal (Summary.timestamp a) (Summary.timestamp b).

(** The stores the server can be in: the empty table, then one insert per
    successful run of the handler, its only writer. *)
Inductive reachable : Db -> Prop :=
| reachable_empty : reachable empty_db
| reachable_scan (sc : Scenario) (url : string) (d : Db) :
    reachable d -> reachable (db (snd (run_scan sc url d))).

(** The text columns of [r] are serialized buffers. *)
Definition holds_buffers (r : ScanRow.t) (ls : list LogEntry.t)
    (ns : list NetEntry.t) : Prop :=
  ScanRow.logs r = JSON.stringify (json_of_logs ls) /\
  ScanRow.network r = JSON.stringify (json_of_networkLogs ns).

(** What the handler guarantees of a network entry it keeps. *)
Definition net_entry_ok (n : NetEntry.t) : Prop :=
  is_data_url (NetEntry.url n) = false /\
  (NetEntry.errorText n <> None -> NetEntry.status n = 0).

(** What the handler guarantees of a row it wrote. *)
Definition stored_row_ok (r : ScanRow.t) : Prop :=
  exists ls ns,
    holds_buffers r ls ns /\
    ScanRow.error_count r = count_type "error" ls /\
    ScanRow.warn_count r = count_type "warn" ls /\
    ScanRow.screenshot r <> None /\
    Forall net_entry_ok ns.

(** The body [GET /api/history/:id] sends for row [r] holding [ls], [ns]. *)
Definition full_scan (r : ScanRow.t) (ls : list LogEntry.t)
    (ns : list NetEntry.t) : Scan.t :=
  Scan.mk (ScanRow.id r) (ScanRow.url r) (ScanRow.timestamp r)
          (json_of_logs ls) (json_of_networkLogs ns)
          (ScanRow.screenshot r) (ScanRow.error_count r)
          (ScanRow.warn_count r).

(** Three rows inserted within two seconds, the last two in one second. *)
Definition three_rows : Db :=
  {| scans :=
       [ScanRow.mk 1 "https://a.test" "2026-01-15 10:30:02" "[]" "[]"
                   (Some "AAAA") 0 0;
        ScanRow.mk 2 "https://b.test" "2026-01-15 10:30:04" "[]" "[]"
                   (Some "BBBB") 2 1;
        ScanRow.mk 3 "https://c.test" "2026-01-15 10:30:04" "[]" "[]"
                   (Some "CCCC") 0 3];
     sqlite_sequence := 3 |}.

(** ** Concrete runs *)

Definition chromium : Browser := {| browser_id := 1 |}.

(** A page that logs [hello], then [boom] on the error channel, after its
    document arrived with status 200; it also loads an inline image. *)
Definition example_scan : Scenario :=
  {| launch_result := Normal chromium;
     newPage_result := Normal tt;
     setViewport_result := Normal tt;
     goto_events :=
       [Response "https://example.com/" 200 "GET" "document"
                 "2026-01-15T10:30:00.120Z";
        Response "data:image/png;base64,iVBORw0KGgo=" 200 "GET" "image"
                 "2026-01-15T10:30:00.150Z";
        Console "log" "hello" ["JSHandle:hello"] "2026-01-15T10:30:00.200Z";
        Console "error" "boom" ["JSHandle:boom"] "2026-01-15T10:30:00.210Z";
        RequestFailed "https://example.com/favicon.ico" "GET" "other" None
                      "2026-01-15T10:30:00.300Z"];
     goto_result := Normal tt;
     screenshot_events := [];
     screenshot_result := Normal "iVBORw0KGgoAAAANSUhEUg==";
     insert_result := Normal "2026-01-15 10:30:02";
     catch_clock := "2026-01-15T10:30:02.000Z";
     close_events := [];
     close_result := Normal tt |}.

Definition navigation_timeout : Exn :=
  {| message := "Navigation timeout of 30000 ms exceeded" |}.

(** The page logs once, then the navigation times out. *)
Definition timeout_scan : Scenario :=
  {| launch_result := Normal chromium;
     newPage_result := Normal tt;
     setViewport_result := Normal tt;
     goto_events :=
       [Console "log" "hello" ["JSHandle:hello"] "2026-01-15T10:30:00.200Z";
        RequestFailed "https://unreachable.test/app.js" "GET" "script"
                      (Some "net::ERR_NAME_NOT_RESOLVED")
                      "2026-01-15T10:30:00.300Z"];
     goto_result := Throw navigation_timeout;
     screenshot_events := [];
     screenshot_result := Normal "iVBORw0KGgoAAAANSUhEUg==";
     insert_result := Normal "2026-01-15 10:30:30";
     catch_clock := "2026-01-15T10:30:30.000Z";
     close_events := [];
     close_result := Normal tt |}.

Definition screenshot_error : Exn :=
  {| message := "Protocol error (Page.captureScreenshot): Unable to capture screenshot" |}.

(** Launch and navigation succeed; the screenshot call throws. *)
Definition screenshot_failure_scan : Scenario :=
  {| launch_result := Normal chromium;
     newPage_result := Normal tt;
     setViewport_result := Normal tt;
     goto_events :=
       [Console "log" "hello" ["JSHandle:hello"] "2026-01-15T10:30:00.200Z"];
     goto_result := Normal tt;
     screenshot_events := [];
     screenshot_result := Throw screenshot_error;
     insert_result := Normal "2026-01-15 10:30:02";
     catch_clock := "2026-01-15T10:30:02.000Z";
     close_events := [];
     close_result := Normal tt |}.

Definition close_error : Exn :=
  {| message := "Protocol error: Connection closed." |}.

(** The scan succeeds; [browser.close()] throws. *)
Definition close_failure_scan : Scenario :=
  {| launch_result := Normal chromium;
     newPage_result := Normal tt;
     setViewport_result := Normal tt;
     goto_events :=
       [Console "log" "hello" ["JSHandle:hello"] "2026-01-15T10:30:00.200Z"];
     goto_result := Normal tt;
     screenshot_events := [];
     screenshot_result := Normal "iVBORw0KGgoAAAANSUhEUg==";
     insert_result := Normal "2026-01-15 10:30:02";
     catch_clock := "2026-01-15T10:30:02.000Z";
     close_events := [];
     close_result := Throw close_error |}.

(** A local file: the engine reports its response with status 0. *)
Definition local_file_scan : Scenario :=
  {| launch_result := Normal chromium;
     newPage_result := Normal tt;
     setViewport_result := Normal tt;
     goto_events :=
       [Response "file:///srv/site/index.html" 0 "GET" "document"
                 "2026-01-15T10:30:00.120Z"];
     goto_result := Normal tt;
     screenshot_events := [];
     screenshot_result := Normal "iVBORw0KGgoAAAANSUhEUg==";
     insert_result := Normal "2026-01-15 10:30:02";
     catch_clock := "2026-01-15T10:30:02.000Z";
     close_events := [];
     close_result := Normal tt |}.

(** The entry [local_file_scan] publishes. *)
Definition local_file_entry : NetEntry.t :=
  response_entry "file:///srv/site/index.html" 0 "GET" "document"
                 "2026-01-15T10:30:00.120Z".

(** The store after [example_scan] ran on the empty store. *)
Definition example_db : Db :=
  db (snd (run_scan example_scan "https://example.com" empty_db)).

(** The row [example_scan] inserted. *)
Definition example_row : ScanRow.t :=
  hd (ScanRow.mk 0 EmptyString EmptyString EmptyString EmptyString None 0 0)
     (scans example_db).

Definition favicon_entry : NetEntry.t :=
  requestfailed_entry "https://example.com/favicon.ico" "GET" "other" None
                      "2026-01-15T10:30:00.300Z".

(** ** What the client can read off the socket *)

(** The entries carried by the [console-log] and by the [network-log]
    messages of a stream, in order. *)
Definition console_payloads (ms : list Emit) : list LogEntry.t :=
  flat_map (fun m => match m with ConsoleLog l => [l] | _ => [] end) ms.

Definition network_payloads (ms : list Emit) : list NetEntry.t :=
  flat_map (fun m => match m with NetworkLog n => [n] | _ => [] end) ms.

(** The messages that precede the first [scan-complete]. *)
Fixpoint until_complete (ms : list Emit) : list Emit :=
  match ms with
  | [] => []
  | m :: ms' => if is_scan_complete m then [] else m :: until_complete ms'
  end.

(** The events the handler turns into an entry of type [error] and of
    type [warn]. *)
Definition is_error_event (ev : PageEvent) : bool :=
  match ev with
  | PageError _ _ => true
  | Console ty _ _ _ => String.eqb ty "error"
  | _ => false
  end.

Definition is_warn_event (ev : PageEvent) : bool :=
  match ev with
  | Console ty _ _ _ => String.eqb ty "warn"
  | _ => false
  end.

(** [d'] is [d] after any number of further runs of the handler. *)
Inductive later (d : Db) : Db -> Prop :=
| later_refl : later d d
| later_scan (sc : Scenario) (url : string) (d' : Db) :
    later d d' -> later d (db (snd (run_scan sc url d'))).

(** The rowids 1, 2, ..., n. *)
Definition first_rowids (n : nat) : list Z := map Z.of_nat (seq 1 n).

(** The summaries in the body of a history answer. *)
Definition listed (r : HttpResponse) : list Summary.t :=
  match body r with
  | Summaries l => l
  | _ => []
  end.

Definition disk_full : Exn := {| message := "database or disk is full" |}.

(** The scan succeeds up to the screenshot; the INSERT throws. *)
Definition insert_failure_scan : Scenario :=
  {| launch_result := Normal chromium;
     newPage_result := Normal tt;
     setViewport_result := Normal tt;
     goto_events :=
       [Console "log" "hello" ["JSHandle:hello"] "2026-01-15T10:30:00.200Z"];
     goto_result := Normal tt;
     screenshot_events := [];
     screenshot_result := Normal "iVBORw0KGgoAAAANSUhEUg==";
     insert_result := Throw disk_full;
     catch_clock := "2026-01-15T10:30:02.000Z";
     close_events := [];
     close_result := Normal tt |}.

(** A second scan of the same page, two seconds after [example_scan]; the
    page throws and warns. *)
Definition second_scan : Scenario :=
  {| launch_result := Normal {| browser_id := 2 |};
     newPage_result := Normal tt;
     setViewport_result := Normal tt;
     goto_events :=
       [Response "https://example.com/" 200 "GET" "document"
                 "2026-01-15T10:30:03.120Z";
        PageError "TypeError: x is undefined" "2026-01-15T10:30:03.200Z";
        Console "warn" "deprecated" ["JSHandle:deprecated"]
                "2026-01-15T10:30:03.210Z";
        Console "debug" "tick" ["JSHandle:tick"] "2026-01-15T10:30:03.220Z"];
     goto_result := Normal tt;
     screenshot_events := [];
     screenshot_result := Normal "iVBORw0KGgoAAAANSUhEUh==";
     insert_result := Normal "2026-01-15 10:30:04";
     catch_clock := "2026-01-15T10:30:04.000Z";
     close_events := [];
     close_result := Normal tt |}.

(** The store after [second_scan] ran on [example_db]. *)
Definition second_db : Db :=
  db (snd (run_scan second_scan "https://example.com" example_db)).

(** * The client: App.tsx *)

Module App.

(** The level filter: ["all" | "info" | "warn" | "error"]. *)
Inductive Filter := all | info | warn | error.

Definition filter_eqb (a b : Filter) : bool :=
  match a, b with
  | all, all | info, info | warn, warn | error, error => true
  | _, _ => false
  end.

(** [s.includes(q)]: [q] occurs in [s]. *)
Fixpoint includes (s q : string) : bool :=
  if String.prefix q s then true
  else match s with
       | EmptyString => false
       | String _ s' => includes s' q
       end.

(** A string is truthy when it is not empty. *)
Definition truthy (s : string) : bool :=
  match s with
  | EmptyString => false
  | String _ _ => true
  end.

Section FilteredLogs.
(** [String.prototype.toLowerCase], the platform's. *)
Variable toLowerCase : string -> string.

(** The callback of [logs.filter(...)] in [filteredLogs]. *)
Definition keeps (filter : Filter) (searchQuery : string) (log : LogEntry.t)
  : bool :=
  if negb (filter_eqb filter all) &&
     ((filter_eqb filter error &&
       negb (String.eqb (LogEntry.type log) "error")) ||
      (filter_eqb filter warn &&
       negb (String.eqb (LogEntry.type log) "warn")) ||
      (filter_eqb filter info &&
       negb (String.eqb (LogEntry.type log) "info") &&
       negb (String.eqb (LogEntry.type log) "log")))
  then false
  else if truthy searchQuery then
    let query := toLowerCase searchQuery in
    let textMatch := includes (toLowerCase (LogEntry.text log)) query in
    let argsMatch :=
      match LogEntry.args log with
      | Some a => existsb (fun arg => includes (toLowerCase arg) query) a
      | None => false
      end in
    if negb textMatch && negb argsMatch then false else true
  else true.

Definition filteredLogs (logs : list LogEntry.t) (filter : Filter)
    (searchQuery : string) : list LogEntry.t :=
  List.filter (keeps filter searchQuery) logs.
End FilteredLogs.

(** The status cell of a row of the network table: its colour class and
    its text. *)
Definition status_class (net : NetEntry.t) : string :=
  if (NetEntry.status net >=? 400) || (NetEntry.status net =? 0)
  then "text-red-400" else "text-green-400".

Definition status_text (net : NetEntry.t) : string :=
  if NetEntry.status net =? 0 then "FAILED"
  else JSON.string_of_Z (NetEntry.status net).

(** [net.errorText && <div>...</div>]: the line under the URL. *)
Definition error_line (net : NetEntry.t) : option string :=
  match NetEntry.errorText net with
  | Some e => if truthy e then Some e else None
  | None => None
  end.

Inductive Tab := console | network | snapshots | history.

(** What [handleScan] reads and writes of the component; [socket] tells
    whether the socket state holds a socket or is still [null]. *)
Record State := mkState
  { url : string;
    logs : list LogEntry.t;
    networkLogs : list NetEntry.t;
    screenshot : option string;
    logBuffer : list LogEntry.t;
    networkBuffer : list NetEntry.t;
    isScanning : bool;
    activeTab : Tab;
    socket : bool }.

(** What [handleScan] does to the outside. *)
Inductive Effect :=
| Alert (text : string)
| EmitScanUrl (url : string).

(** [handleScan]; [socket?.emit] sends only when the socket exists. *)
Definition handleScan (st : State) : State * list Effect :=
  if negb (truthy (url st)) then (st, [])
  else if negb (String.prefix "http" (url st)) then
    (st,
     [Alert "Please enter a valid URL starting with http:// or https://"])
  else
    (mkState (url st) [] [] None [] [] true console (socket st),
     if socket st then [EmitScanUrl (url st)] else []).

End App.

(** The lower-casing of the letters A to Z, for the examples. *)
Fixpoint ascii_lower (s : string) : string :=
  match s with
  | EmptyString => EmptyString
  | String c s' =>
      let n := N_of_ascii c in
      String (if ((65 <=? n) && (n <=? 90))%N then ascii_of_N (n + 32) else c)
             (ascii_lower s')
  end.

(** A console with one entry of each level. *)
Definition sample_logs : list LogEntry.t :=
  [console_entry "log" "Hello World" ["JSHandle:Hello World"] "t1";
   console_entry "info" "ready" [] "t2";
   console_entry "warn" "deprecated" [] "t3";
   console_entry "error" "boom" ["JSHandle:BOOM"] "t4";
   console_entry "debug" "tick" [] "t5";
   pageerror_entry "TypeError: x is undefined" "t6"].

(** ** Stored entries as the client reads them

    The client types what the routes send by the interfaces [LogEntry]
    and [NetworkEntry] of App.tsx and reads the fields by name. *)

(** [v.key]: the member of that name, the last one if a name repeats. *)
Definition prop (key : string) (v : JSON.value) : option JSON.value :=
  match v with
  | JSON.Obj members =>
      option_map snd
        (find (fun kv => String.eqb (fst kv) key) (rev members))
  | _ => None
  end.

Definition string_of_json (v : JSON.value) : option string :=
  match v with
  | JSON.Str s => Some s
  | _ => None
  end.

(** Reads every element of a list, or none. *)
Fixpoint read_all {A B} (f : A -> option B) (l : list A) : option (list B) :=
  match l with
  | [] => Some []
  | x :: l' =>
      match f x, read_all f l' with
      | Some y, Some ys => Some (y :: ys)
      | _, _ => None
      end
  end.

(** [{ type: string; text: string; timestamp: string; args?: string[] }] *)
Definition logEntry_of_json (v : JSON.value) : option LogEntry.t :=
  match prop "type" v, prop "text" v, prop "timestamp" v with
  | Some (JSON.Str ty), Some (JSON.Str tx), Some (JSON.Str ts) =>
      match prop "args" v with
      | None => Some (LogEntry.mk ty tx None ts)
      | Some (JSON.Arr items) =>
          option_map (fun a => LogEntry.mk ty tx (Some a) ts)
                     (read_all string_of_json items)
      | Some _ => None
      end
  | _, _, _ => None
  end.

(** [{ url: string; status: number; method: string; type: string;
       errorText?: string; timestamp: string }] *)
Definition netEntry_of_json (v : JSON.value) : option NetEntry.t :=
  match prop "url" v, prop "status" v, prop "method" v, prop "type" v,
        prop "timestamp" v with
  | Some (JSON.Str u), Some (JSON.Num s), Some (JSON.Str m),
    Some (JSON.Str ty), Some (JSON.Str ts) =>
      match prop "errorText" v with
      | None => Some (NetEntry.mk u s m ty None ts)
      | Some (JSON.Str e) => Some (NetEntry.mk u s m ty (Some e) ts)
      | Some _ => None
      end
  | _, _, _, _, _ => None
  end.

(** [data.logs] and [data.network] read as [LogEntry[]] and
    [NetworkEntry[]]. *)
Definition logs_of_json (v : JSON.value) : option (list LogEntry.t) :=
  match v with
  | JSON.Arr items => read_all logEntry_of_json items
  | _ => None
  end.

Definition networkLogs_of_json (v : JSON.value) : option (list NetEntry.t) :=
  match v with
  | JSON.Arr items => read_all netEntry_of_json items
  | _ => None
  end.

(** ** The route text of [GET /api/history/:id]

    [req.params.id] is a text.  The store compares it with the integer
    key after converting it by the affinity of the column;
    [rowid_of_text] is that conversion, the store's own: the integer the
    text equals, [None] for a text that equals no integer. *)
Definition api_history_route (rowid_of_text : string -> option Z)
    (fault : option Exn) (param : string) (d : Db) : HttpResponse :=
  match fault with
  | Some _ => {| status := 500; body := ErrorBody "Failed to fetch scan" |}
  | None =>
      match rowid_of_text param with
      | Some id => api_history_id None id d
      | None => {| status := 404; body := ErrorBody "Scan not found" |}
      end
  end.

(** A conversion for the examples: it knows the decimal integers. *)
Definition decimal_rowid (s : string) : option Z :=
  match JSON.parse_number s with
  | Some (z, EmptyString) => Some z
  | _ => None
  end.

(** ** Ranges in which the model is the code *)

(** The largest rowid that [info.lastInsertRowid], a JS number, holds
    for certain: 2^53.  Up to it the number sent in [scan-complete] is the
    rowid, and the store is far from full. *)
Definition max_exact_rowid : Z := 9007199254740992.

(** [s] follows [p], where [d] in [p] stands for a decimal digit. *)
Fixpoint follows_pattern (p s : string) : bool :=
  match p, s with
  | EmptyString, EmptyString => true
  | String pc p', String c s' =>
      (if Ascii.eqb pc "d" then JSON.is_digit c else Ascii.eqb pc c) &&
      follows_pattern p' s'
  | _, _ => false
  end.

(** The texts CURRENT_TIMESTAMP yields: [YYYY-MM-DD HH:MM:SS].  Such a
    text is no number, so the DATETIME column keeps it as text and
    [ORDER BY] compares it byte by byte. *)
Definition is_current_timestamp (s : string) : bool :=
  follows_pattern "dddd-dd-dd dd:dd:dd" s.

Definition current_timestamps (d : Db) : Prop :=
  forall r, In r (scans d) -> is_current_timestamp (ScanRow.timestamp r) = true.

(** The store's clock went forward between any two inserts. *)
Definition inserted_at_increasing_times (rows : list ScanRow.t) : Prop :=
  StronglySorted
    (fun a b => String.ltb (ScanRow.timestamp a) (ScanRow.timestamp b) = true)
    rows.

(** [inserted_at_increasing_times], decided. *)
Fixpoint increasing_times (rows : list ScanRow.t) : bool :=
  match rows with
  | [] => true
  | a :: rows' =>
      forallb (fun b => String.ltb (ScanRow.timestamp a) (ScanRow.timestamp b))
              rows' &&
      increasing_times rows'
  end.

(** ** Scans on several connections

    Every [scan-url] message starts a handler of its own, and the
    handlers of different connections overlap.  A handler touches the
    store only in its INSERT, so the store is what the handlers leave in
    the order in which they reach the INSERT. *)
Record Session := mkSession
  { submitted : string;
    session_scan : Scenario;
    session_url : string }.

(** The store after the handlers of [finished] ran, listed in the order
    in which they finished. *)
Definition serve (finished : list Session) (d : Db) : Db :=
  fold_left
    (fun d s => db (snd (run_scan (session_scan s) (session_url s) d)))
    finished d.

(** A page that takes nine seconds to settle, submitted first. *)
Definition slow_session : Session :=
  {| submitted := "2026-01-15T10:30:00.000Z";
     session_scan :=
       {| launch_result := Normal chromium;
          newPage_result := Normal tt;
          setViewport_result := Normal tt;
          goto_events :=
            [Console "log" "loading" ["JSHandle:loading"]
                     "2026-01-15T10:30:00.900Z"];
          goto_result := Normal tt;
          screenshot_events := [];
          screenshot_result := Normal "iVBORw0KGgoAAAANSUhEUg==";
          insert_result := Normal "2026-01-15 10:30:09";
          catch_clock := "2026-01-15T10:30:09.000Z";
          close_events := [];
          close_result := Normal tt |};
     session_url := "https://slow.test" |}.

(** A page that settles in two seconds, submitted three seconds later. *)
Definition quick_session : Session :=
  {| submitted := "2026-01-15T10:30:03.000Z";
     session_scan :=
       {| launch_result := Normal {| browser_id := 2 |};
          newPage_result := Normal tt;
          setViewport_result := Normal tt;
          goto_events :=
            [Console "log" "ready" ["JSHandle:ready"]
                     "2026-01-15T10:30:03.900Z"];
          goto_result := Normal tt;
          screenshot_events := [];
          screenshot_result := Normal "iVBORw0KGgoAAAANSUhEUh==";
          insert_result := Normal "2026-01-15 10:30:05";
          catch_clock := "2026-01-15T10:30:05.000Z";
          close_events := [];
          close_result := Normal tt |};
     session_url := "https://quick.test" |}.

(** ** A response that arrives while the browser closes *)

Definition late_poll : NetEntry.t :=
  response_entry "https://example.com/poll" 200 "GET" "xhr"
                 "2026-01-15T10:30:02.100Z".

(** The page polls its server.  The navigation settles with the request
    open, and its response arrives after the notice was sent, while the
    handler awaits [browser.close()]. *)
Definition late_event_scan : Scenario :=
  {| launch_result := Normal chromium;
     newPage_result := Normal tt;
     setViewport_result := Normal tt;
     goto_events :=
       [Response "https://example.com/" 200 "GET" "document"
                 "2026-01-15T10:30:00.120Z";
        Console "log" "hello" ["JSHandle:hello"] "2026-01-15T10:30:00.200Z"];
     goto_result := Normal tt;
     screenshot_events := [];
     screenshot_result := Normal "iVBORw0KGgoAAAANSUhEUg==";
     insert_result := Normal "2026-01-15 10:30:02";
     catch_clock := "2026-01-15T10:30:02.000Z";
     close_events :=
       [Response "https://example.com/poll" 200 "GET" "xhr"
                 "2026-01-15T10:30:02.100Z"];
     close_result := Normal tt |}.
(** * Facts

    ** The serializer and the parser *)

Module JSONFacts.
Import JSON.

Lemma append_assoc (a b c : string) : (a ++ b) ++ c = a ++ (b ++ c).
Proof. induction a as [|x a IH]; simpl; [reflexivity | now rewrite IH]. Qed.

Lemma length_append (a b : string) :
  String.length (a ++ b) = (String.length a + String.length b)%nat.
Proof. induction a as [|x a IH]; simpl; [reflexivity | now rewrite IH]. Qed.

(** *** Strings *)

Lemma parse_chars_escape (s rest : string) :
  parse_chars (escape s ++ String dquote rest) = Some (s, rest).
Proof.
  induction s as [|c s IH]; [reflexivity|].
  cbn [escape]. rewrite append_assoc.
  set (tail := escape s ++ String dquote rest) in *.
  destruct c as [[] [] [] [] [] [] [] []]; cbn; rewrite IH; reflexivity.
Qed.

Lemma parse_chars_quote (s rest : string) :
  exists body, quote s ++ rest = String dquote body /\
               parse_chars body = Some (s, rest).
Proof.
  exists (escape s ++ String dquote rest). split.
  - unfold quote. cbn [append]. now rewrite append_assoc.
  - apply parse_chars_escape.
Qed.

(** *** Numbers *)

Lemma span_digits_uint (d : Decimal.uint) (rest : string) :
  no_digit_head rest ->
  span_digits (NilEmpty.string_of_uint d ++ rest)
  = (NilEmpty.string_of_uint d, rest).
Proof.
  intros Hr. induction d; cbn;
    try (rewrite IHd; reflexivity).
  destruct rest as [|c r]; cbn in *; [reflexivity | now rewrite Hr].
Qed.

Lemma to_uint_normal (n : N) : Decimal.unorm (N.to_uint n) = N.to_uint n.
Proof.
  rewrite <- (DecimalN.Unsigned.of_to n) at 2.
  now rewrite DecimalN.Unsigned.to_of.
Qed.

Lemma string_of_N_head (n : N) :
  exists c s, string_of_N n = String c s /\ is_digit c = true.
Proof.
  unfold string_of_N.
  assert (H : N.to_uint n <> Decimal.Nil).
  { rewrite <- to_uint_normal. apply unorm_nonnil. }
  destruct (N.to_uint n); try congruence; cbn; eauto.
Qed.

Lemma parse_N_string (n : N) (rest : string) :
  no_digit_head rest ->
  parse_N (string_of_N n ++ rest) = Some (n, rest).
Proof.
  intros Hr. unfold parse_N, string_of_N.
  rewrite span_digits_uint by assumption.
  destruct (string_of_N_head n) as (c & s & E & _).
  unfold string_of_N in E. rewrite E, <- E.
  rewrite NilEmpty.usu, to_uint_normal.
  destruct (Decimal.uint_eq_dec (N.to_uint n) (N.to_uint n)); [|congruence].
  now rewrite DecimalN.Unsigned.of_to.
Qed.

Lemma digit_not_minus (c : ascii) :
  is_digit c = true -> Ascii.eqb c "-" = false.
Proof.
  destruct (Ascii.eqb_spec c "-") as [->|]; [discriminate | reflexivity].
Qed.

Lemma parse_number_string (z : Z) (rest : string) :
  no_digit_head rest ->
  parse_number (string_of_Z z ++ rest) = Some (z, rest).
Proof.
  intros Hr.
  assert (G : forall n, parse_number (string_of_N n ++ rest)
                        = Some (Z.of_N n, rest)).
  { intros n. pose proof (parse_N_string n rest Hr) as P.
    destruct (string_of_N_head n) as (c & s & E & D).
    rewrite E in *. cbn [append] in *. cbn [parse_number].
    now rewrite (digit_not_minus c D), P. }
  destruct z as [|p|p]; unfold string_of_Z.
  - apply (G 0%N).
  - apply (G (Npos p)).
  - cbn [append parse_number Ascii.eqb Bool.eqb].
    rewrite parse_N_string by assumption. reflexivity.
Qed.

Lemma string_of_Z_head (z : Z) :
  exists c s, string_of_Z z = String c s /\
              is_digit c || Ascii.eqb c "-" = true.
Proof.
  destruct z as [|p|p]; unfold string_of_Z.
  - destruct (string_of_N_head (Z.to_N 0)) as (c & s & E & D).
    exists c, s. now rewrite E, D.
  - destruct (string_of_N_head (Z.to_N (Zpos p))) as (c & s & E & D).
    exists c, s. now rewrite E, D.
  - eexists _, _. split; reflexivity.
Qed.

(** *** Values *)

Lemma append_empty_r (a : string) : a ++ EmptyString = a.
Proof. induction a as [|x a IH]; simpl; [reflexivity | now rewrite IH]. Qed.

Lemma stringify_head (v : value) :
  exists c s, stringify v = String c s /\
              Ascii.eqb c "]" = false /\ Ascii.eqb c "}" = false.
Proof.
  destruct v as [|[]|n|s|items|members];
    try (eexists _, _; repeat split; reflexivity).
  destruct (string_of_Z_head n) as (c & s & E & D).
  exists c, s. cbn [stringify]. split; [assumption|].
  split.
  - destruct (Ascii.eqb_spec c "]") as [->|]; [discriminate | reflexivity].
  - destruct (Ascii.eqb_spec c "}") as [->|]; [discriminate | reflexivity].
Qed.

Lemma parse_value_number (f : nat) (c : ascii) (s1 : string) :
  is_digit c || Ascii.eqb c "-" = true ->
  parse_value (S f) (String c s1)
  = match parse_number (String c s1) with
    | Some (n, rest) => Some (Num n, rest)
    | None => None
    end.
Proof. intros H. cbn [parse_value]. now rewrite H. Qed.

Lemma parse_value_string (f : nat) (body : string) :
  parse_value (S f) (String dquote body)
  = match parse_chars body with
    | Some (str, rest) => Some (Str str, rest)
    | None => None
    end.
Proof. reflexivity. Qed.

Lemma parse_value_array (f : nat) (c1 : ascii) (r1 : string) :
  parse_value (S f) (String "[" (String c1 r1))
  = if Ascii.eqb c1 "]" then Some (Arr [], r1)
    else match parse_items (parse_value f) f (String c1 r1) with
         | Some (vs, rest) => Some (Arr vs, rest)
         | None => None
         end.
Proof. reflexivity. Qed.

Lemma parse_value_object (f : nat) (c1 : ascii) (r1 : string) :
  parse_value (S f) (String "{" (String c1 r1))
  = if Ascii.eqb c1 "}" then Some (Obj [], r1)
    else match parse_members (parse_value f) f (String c1 r1) with
         | Some (ms, rest) => Some (Obj ms, rest)
         | None => None
         end.
Proof. reflexivity. Qed.

Section SequenceFacts.
Variable pv : string -> option (value * string).

Lemma parse_items_join (vs : list value) :
  forall n rest,
    vs <> [] -> (List.length vs <= n)%nat -> Forall (reads pv) vs ->
    parse_items pv n (join "," (map stringify vs) ++ String "]" rest)
    = Some (vs, rest).
Proof.
  induction vs as [|v vs IH]; intros n rest Hne Hn Hall; [congruence|].
  inversion Hall as [|? ? Hv Hvs]; subst.
  destruct n as [|n]; [cbn in Hn; lia|].
  destruct vs as [|w vs].
  - cbn [map join parse_items]. rewrite Hv by reflexivity. reflexivity.
  - change (join "," (map stringify (v :: w :: vs)))
      with (stringify v ++ "," ++ join "," (map stringify (w :: vs))).
    rewrite append_assoc. cbn [parse_items].
    change (("," ++ join "," (map stringify (w :: vs))) ++ String "]" rest)
      with (String "," (join "," (map stringify (w :: vs)) ++ String "]" rest)).
    rewrite Hv by reflexivity.
    cbn [Ascii.eqb Bool.eqb].
    rewrite IH; [reflexivity | congruence | cbn in *; lia | assumption].
Qed.

Lemma parse_members_join (ms : list (string * value)) :
  forall n rest,
    ms <> [] -> (List.length ms <= n)%nat ->
    Forall (fun kv => reads pv (snd kv)) ms ->
    parse_members pv n (join "," (map member ms) ++ String "}" rest)
    = Some (ms, rest).
Proof.
  induction ms as [|[k v] ms IH]; intros n rest Hne Hn Hall; [congruence|].
  inversion Hall as [|? ? Hv Hvs]; subst. cbn [snd] in Hv.
  destruct n as [|n]; [cbn in Hn; lia|].
  assert (E : forall tail,
             member (k, v) ++ tail
             = String dquote (escape k ++
                 String dquote (String ":" (stringify v ++ tail)))).
  { intros tail. unfold member, quote. cbn [fst snd append].
    now rewrite !append_assoc. }
  destruct ms as [|m ms].
  - cbn [map join]. rewrite E. cbn [parse_members].
    change (Ascii.eqb dquote dquote) with true. cbv iota.
    rewrite parse_chars_escape. cbn [Ascii.eqb Bool.eqb].
    rewrite Hv by reflexivity. reflexivity.
  - change (join "," (map member ((k, v) :: m :: ms)))
      with (member (k, v) ++ "," ++ join "," (map member (m :: ms))).
    rewrite append_assoc, E. cbn [parse_members].
    change (Ascii.eqb dquote dquote) with true. cbv iota.
    rewrite parse_chars_escape. cbn [Ascii.eqb Bool.eqb].
    change (("," ++ join "," (map member (m :: ms))) ++ String "}" rest)
      with (String "," (join "," (map member (m :: ms)) ++ String "}" rest)).
    rewrite Hv by reflexivity. cbn [Ascii.eqb Bool.eqb].
    rewrite IH; [reflexivity | congruence | cbn in *; lia | assumption].
Qed.
End SequenceFacts.

Lemma size_pos (v : value) : (1 <= size v)%nat.
Proof. destruct v; cbn [size]; lia. Qed.

Lemma in_list_sum {A} (f : A -> nat) (x : A) (l : list A) :
  In x l -> (f x <= list_sum (map f l))%nat.
Proof.
  induction l as [|y l IH]; [intros []|].
  change (list_sum (map f (y :: l))) with (f y + list_sum (map f l))%nat.
  intros [->|H]; [lia | specialize (IH H); lia].
Qed.

Lemma length_le_list_sum {A} (f : A -> nat) (l : list A) :
  (forall x, 1 <= f x)%nat -> (List.length l <= list_sum (map f l))%nat.
Proof.
  intros Hf. induction l as [|y l IH]; [cbn; lia|].
  change (list_sum (map f (y :: l))) with (f y + list_sum (map f l))%nat.
  specialize (Hf y). cbn [List.length]. lia.
Qed.

Lemma join_head {A} (g : A -> string) (x : A) (l : list A) (c : ascii)
    (s : string) :
  g x = String c s ->
  exists s', join "," (map g (x :: l)) = String c s'.
Proof.
  intros E. destruct l as [|y l]; cbn [map join]; rewrite E; cbn; eauto.
Qed.

Lemma parse_value_stringify :
  forall fuel v rest,
    (size v <= fuel)%nat -> no_digit_head rest ->
    parse_value fuel (stringify v ++ rest) = Some (v, rest).
Proof.
  induction fuel as [|f IH]; intros v rest Hsz Hr.
  { pose proof (size_pos v). lia. }
  destruct v as [|[]|n|s|items|members]; try reflexivity.
  - destruct (string_of_Z_head n) as (c & s & E & D).
    cbn [stringify]. pose proof (parse_number_string n rest Hr) as P.
    rewrite E in *. cbn [append] in *.
    rewrite parse_value_number, P by assumption. reflexivity.
  - destruct (parse_chars_quote s rest) as (body & E & P).
    cbn [stringify]. rewrite E, parse_value_string, P. reflexivity.
  - cbn [stringify size] in *.
    change (("[" ++ join "," (map stringify items) ++ "]") ++ rest)
      with (String "[" ((join "," (map stringify items) ++ "]") ++ rest)).
    rewrite append_assoc.
    change ("]" ++ rest) with (String "]" rest).
    destruct items as [|v items]; [reflexivity|].
    destruct (stringify_head v) as (c & s & E & Hc & _).
    destruct (join_head stringify v items c s E) as (s' & J).
    pose proof (parse_items_join (parse_value f) (v :: items) f rest) as P.
    rewrite J in *. cbn [append] in *.
    rewrite parse_value_array, Hc, P; [reflexivity | congruence | |].
    + pose proof (length_le_list_sum size (v :: items) size_pos). lia.
    + apply Forall_forall. intros w Hw r Hr'. apply IH; [|assumption].
      pose proof (in_list_sum size w (v :: items) Hw). lia.
  - cbn [stringify size] in *. fold member.
    change (("{" ++ join "," (map member members) ++ "}") ++ rest)
      with (String "{" ((join "," (map member members) ++ "}") ++ rest)).
    rewrite append_assoc.
    change ("}" ++ rest) with (String "}" rest).
    destruct members as [|[k v] members]; [reflexivity|].
    assert (E : member (k, v)
                = String dquote (escape k ++ String dquote EmptyString
                                 ++ ":" ++ stringify v)).
    { unfold member, quote. cbn [fst snd append]. now rewrite !append_assoc. }
    destruct (join_head member (k, v) members _ _ E) as (s' & J).
    pose proof (parse_members_join (parse_value f) ((k, v) :: members) f rest)
      as P.
    rewrite J in *. cbn [append] in *.
    rewrite parse_value_object.
    change (Ascii.eqb dquote "}") with false. cbv iota.
    rewrite P; [reflexivity | congruence | |].
    + pose proof (length_le_list_sum (fun kv => size (snd kv))
                    ((k, v) :: members) (fun kv => size_pos (snd kv))).
      lia.
    + apply Forall_forall. intros w Hw r Hr'. apply IH; [|assumption].
      pose proof (in_list_sum (fun kv => size (snd kv)) w _ Hw).
      cbn beta in *. lia.
Qed.

Lemma list_sum_le_join {A} (f : A -> nat) (g : A -> string) (l : list A) :
  (forall x, In x l -> (f x <= String.length (g x))%nat) ->
  (list_sum (map f l) <= String.length (join "," (map g l)))%nat.
Proof.
  induction l as [|x l IH]; intros H; [cbn; lia|].
  assert (Hx := H x (or_introl eq_refl)).
  assert (Hl : (list_sum (map f l) <= String.length (join "," (map g l)))%nat).
  { apply IH. intros y Hy. apply H. now right. }
  change (list_sum (map f (x :: l))) with (f x + list_sum (map f l))%nat.
  destruct l as [|y l].
  - change (list_sum (map f [])) with 0%nat. cbn [map join]. lia.
  - change (join "," (map g (x :: y :: l)))
      with (g x ++ "," ++ join "," (map g (y :: l))).
    rewrite !length_append. lia.
Qed.

Lemma size_le_length :
  forall n v, (size v <= n)%nat ->
              (size v <= String.length (stringify v))%nat.
Proof.
  induction n as [|n IH]; intros v Hsz.
  { pose proof (size_pos v). lia. }
  destruct v as [|[]|z|s|items|members]; try (cbn; lia).
  - destruct (string_of_Z_head z) as (c & s & E & _).
    cbn [stringify size]. rewrite E. cbn. lia.
  - cbn [stringify size] in *.
    change (String.length ("[" ++ join "," (map stringify items) ++ "]"))
      with (S (String.length (join "," (map stringify items) ++ "]"))).
    rewrite length_append.
    pose proof (list_sum_le_join size stringify items) as P.
    assert (Q : (list_sum (map size items)
                 <= String.length (join "," (map stringify items)))%nat).
    { apply P. intros w Hw. apply IH.
      pose proof (in_list_sum size w items Hw). lia. }
    lia.
  - cbn [stringify size] in *. fold member.
    change (String.length ("{" ++ join "," (map member members) ++ "}"))
      with (S (String.length (join "," (map member members) ++ "}"))).
    rewrite length_append.
    pose proof (list_sum_le_join (fun kv => size (snd kv)) member members)
      as P.
    assert (Q : (list_sum (map (fun kv => size (snd kv)) members)
                 <= String.length (join "," (map member members)))%nat).
    { apply P. intros w Hw. unfold member. rewrite !length_append.
      assert (size (snd w) <= String.length (stringify (snd w)))%nat.
      { apply IH.
        pose proof (in_list_sum (fun kv => size (snd kv)) w members Hw).
        cbn beta in *. lia. }
      lia. }
    lia.
Qed.

(** [JSON.parse] undoes [JSON.stringify]. *)
Theorem parse_stringify (v : value) : parse (stringify v) = Some v.
Proof.
  unfold parse.
  rewrite <- (append_empty_r (stringify v)) at 2.
  rewrite parse_value_stringify; [reflexivity | | exact I].
  pose proof (size_le_length (size v) v (le_n _)). lia.
Qed.

Lemma stringify_inj (v w : value) : stringify v = stringify w -> v = w.
Proof.
  intros E. pose proof (parse_stringify v) as P.
  rewrite E, parse_stringify in P. congruence.
Qed.
End JSONFacts.
(** ** The callbacks *)

Lemma deliver_spec (evs : list PageEvent) (st : HState) :
  deliver evs st
  = (Normal tt,
     mkHState (browser st) (logs st ++ captured_logs evs)
              (networkLogs st ++ captured_network evs)
              (screenshotBase64 st) (out st ++ published evs)
              (db st) (closed st)).
Proof.
  revert st. induction evs as [|ev evs IH]; intros st.
  - destruct st. cbn. now rewrite !List.app_nil_r.
  - cbn [deliver]. unfold bind.
    assert (E : on_event ev st
                = (Normal tt,
                   mkHState (browser st) (logs st ++ logs_of_event ev)
                            (networkLogs st ++ nets_of_event ev)
                            (screenshotBase64 st)
                            (out st ++ emits_of_event ev)
                            (db st) (closed st))).
    { destruct st, ev as [ty tx ar now|err now|u s m rt now|u m rt f now];
        unfold on_event, on_response, on_requestfailed, emits_of_event,
          nets_of_event, logs_of_event;
        cbn [NetEntry.url response_entry requestfailed_entry];
        try destruct (is_data_url u); cbn;
        now rewrite ?List.app_nil_r. }
    rewrite E, IH. cbn. unfold captured_logs, captured_network, published.
    cbn [flat_map]. now rewrite !List.app_assoc.
Qed.

(** ** One run, in closed form *)

Lemma published_app (a b : list PageEvent) :
  published (a ++ b) = (published a ++ published b)%list.
Proof. apply flat_map_app. Qed.

Lemma captured_logs_app (a b : list PageEvent) :
  captured_logs (a ++ b) = (captured_logs a ++ captured_logs b)%list.
Proof. apply flat_map_app. Qed.

Lemma captured_network_app (a b : list PageEvent) :
  captured_network (a ++ b) = (captured_network a ++ captured_network b)%list.
Proof. apply flat_map_app. Qed.

Ltac step_run :=
  cbn [browser logs networkLogs screenshotBase64 out db closed app fst snd];
  repeat (rewrite deliver_spec;
          cbn [browser logs networkLogs screenshotBase64 out db closed
               app fst snd]).

Ltac settle cl :=
  step_run; unfold captured_logs, captured_network, published;
  cbn [flat_map app];
  rewrite ?List.app_nil_r, <- ?List.app_assoc;
  destruct cl as [[]|]; reflexivity.

Lemma run_scan_spec (sc : Scenario) (url : string) (d : Db) :
  run_scan sc url d = (final_completion sc, final_state sc url d).
Proof.
  destruct sc as [la np sv ge go se sh ins cc ce cl].
  unfold run_scan, scan_url, try_catch_finally, final_completion, final_state,
    final_db, inserted_row, verdict, failure_of, screenshot_taken, observed,
    closing, navigated, init_state.
  cbn [launch_result newPage_result setViewport_result goto_events
       goto_result screenshot_events screenshot_result insert_result
       catch_clock close_events close_result].
  unfold bind, await, get, set_browser, set_screenshotBase64, emit,
    call_close, stmt_run, insert_scan, ret.
  destruct la as [b|e]; [|settle cl].
  destruct np as [[]|e]; [|settle cl].
  destruct sv as [[]|e]; [|settle cl].
  step_run.
  destruct go as [[]|e]; [|settle cl].
  step_run.
  rewrite captured_logs_app, captured_network_app, published_app.
  destruct sh as [shot|e]; [|settle cl].
  destruct ins as [now|e]; settle cl.
Qed.

(** ** What a run leaves behind *)

Lemma run_scan_state (sc : Scenario) (url : string) (d : Db) :
  snd (run_scan sc url d) = final_state sc url d.
Proof. now rewrite run_scan_spec. Qed.

Lemma run_scan_completion (sc : Scenario) (url : string) (d : Db) :
  fst (run_scan sc url d) = final_completion sc.
Proof. now rewrite run_scan_spec. Qed.

Lemma skipn_length_app {A} (l l' : list A) :
  skipn (List.length l) (l ++ l') = l'.
Proof. induction l as [|x l IH]; [reflexivity | exact IH]. Qed.

Lemma new_rows_final (sc : Scenario) (url : string) (d : Db) :
  new_rows d (final_state sc url d)
  = match inserted_row sc url d with
    | Some r => [r]
    | None => []
    end.
Proof.
  unfold new_rows, final_state, final_db. cbn [db].
  destruct (inserted_row sc url d) as [r|]; cbn [scans].
  - apply skipn_length_app.
  - rewrite <- (List.app_nil_r (scans d)) at 2. apply skipn_length_app.
Qed.

(** A run without failure went through every step. *)
Lemma failure_of_none (sc : Scenario) :
  failure_of sc = None ->
  exists b shot now,
    launch_result sc = Normal b /\ newPage_result sc = Normal tt /\
    setViewport_result sc = Normal tt /\ goto_result sc = Normal tt /\
    screenshot_result sc = Normal shot /\ insert_result sc = Normal now.
Proof.
  unfold failure_of.
  destruct (launch_result sc) as [b|]; [|discriminate].
  destruct (newPage_result sc) as [[]|]; [|discriminate].
  destruct (setViewport_result sc) as [[]|]; [|discriminate].
  destruct (goto_result sc) as [[]|]; [|discriminate].
  destruct (screenshot_result sc) as [shot|]; [|discriminate].
  destruct (insert_result sc) as [now|]; [|discriminate].
  intros _. exists b, shot, now. repeat split.
Qed.

Lemma inserted_row_failure (sc : Scenario) (url : string) (d : Db) (e : Exn) :
  failure_of sc = Some e -> inserted_row sc url d = None.
Proof. unfold inserted_row. now intros ->. Qed.

Lemma inserted_row_success (sc : Scenario) (url : string) (d : Db) :
  failure_of sc = None ->
  exists shot now,
    screenshot_result sc = Normal shot /\ insert_result sc = Normal now /\
    observed sc = (goto_events sc ++ screenshot_events sc)%list /\
    screenshot_taken sc = Some shot /\
    inserted_row sc url d
    = Some (ScanRow.mk (next_rowid d) url now
              (JSON.stringify (json_of_logs (captured_logs (observed sc))))
              (JSON.stringify
                 (json_of_networkLogs (captured_network (observed sc))))
              (Some shot)
              (count_type "error" (captured_logs (observed sc)))
              (count_type "warn" (captured_logs (observed sc)))).
Proof.
  intros F. destruct (failure_of_none sc F)
    as (b & shot & now & La & Np & Sv & Go & Sh & In).
  exists shot, now. unfold inserted_row, screenshot_taken, observed, navigated.
  rewrite F, La, Np, Sv, Go, Sh, In. repeat split.
Qed.

Lemma inserted_row_inv (sc : Scenario) (url : string) (d : Db)
    (r : ScanRow.t) :
  inserted_row sc url d = Some r -> failure_of sc = None.
Proof.
  unfold inserted_row. destruct (failure_of sc); [discriminate | reflexivity].
Qed.

(** The callbacks emit only [console-log] and [network-log]. *)
Lemma published_kind (evs : list PageEvent) (m : Emit) :
  In m (published evs) ->
  (exists l, m = ConsoleLog l /\ In l (captured_logs evs)) \/
  (exists n, m = NetworkLog n /\ In n (captured_network evs)).
Proof.
  unfold published, captured_logs, captured_network.
  rewrite in_flat_map. intros (ev & Hev & Hm).
  unfold emits_of_event in Hm. apply in_app_or in Hm.
  destruct Hm as [Hm|Hm]; apply in_map_iff in Hm; destruct Hm as (x & <- & Hx).
  - left. exists x. split; [reflexivity|]. apply in_flat_map. eauto.
  - right. exists x. split; [reflexivity|]. apply in_flat_map. eauto.
Qed.

Lemma published_not_complete (evs : list PageEvent) :
  filter is_scan_complete (published evs) = [].
Proof.
  assert (H : forall m, In m (published evs) -> is_scan_complete m = false).
  { intros m Hm. destruct (published_kind evs m Hm) as [(l & -> & _)|(n & -> & _)];
      reflexivity. }
  induction (published evs) as [|m l IH]; [reflexivity|].
  cbn [filter]. rewrite (H m (or_introl eq_refl)). apply IH.
  intros x Hx. apply H. now right.
Qed.

Lemma published_not_screenshot (evs : list PageEvent) (m : Emit) :
  In m (published evs) -> is_screenshot m = false.
Proof.
  intros Hm. destruct (published_kind evs m Hm) as [(l & -> & _)|(n & -> & _)];
    reflexivity.
Qed.

(** Where a captured network entry comes from. *)
Lemma captured_network_origin (evs : list PageEvent) (n : NetEntry.t) :
  In n (captured_network evs) ->
  is_data_url (NetEntry.url n) = false /\
  ((exists u s m rt now,
      In (Response u s m rt now) evs /\ n = response_entry u s m rt now) \/
   (exists u m rt f now,
      In (RequestFailed u m rt f now) evs /\
      n = requestfailed_entry u m rt f now)).
Proof.
  unfold captured_network. rewrite in_flat_map. intros (ev & Hev & Hn).
  destruct ev as [ty tx ar now|err now|u s m rt now|u m rt f now];
    cbn [nets_of_event] in Hn; try contradiction;
    destruct (is_data_url u) eqn:D; cbn in Hn; try contradiction;
    destruct Hn as [<-|[]]; (split; [exact D|]).
  - left. now exists u, s, m, rt, now.
  - right. now exists u, m, rt, f, now.
Qed.

(** Every captured entry was emitted by its callback. *)
Lemma captured_logs_published (evs : list PageEvent) (l : LogEntry.t) :
  In l (captured_logs evs) -> In (ConsoleLog l) (published evs).
Proof.
  unfold captured_logs, published. rewrite !in_flat_map.
  intros (ev & Hev & Hl). exists ev. split; [exact Hev|].
  unfold emits_of_event. apply in_or_app. left. now apply in_map.
Qed.

Lemma captured_network_published (evs : list PageEvent) (n : NetEntry.t) :
  In n (captured_network evs) -> In (NetworkLog n) (published evs).
Proof.
  unfold captured_network, published. rewrite !in_flat_map.
  intros (ev & Hev & Hn). exists ev. split; [exact Hev|].
  unfold emits_of_event. apply in_or_app. right. now apply in_map.
Qed.

(** ** Stored entries *)

Lemma map_injective {A B} (f : A -> B) (l l' : list A) :
  (forall x y, f x = f y -> x = y) -> map f l = map f l' -> l = l'.
Proof.
  intros Hf. revert l'. induction l as [|x l IH]; intros [|y l'] E;
    try discriminate; [reflexivity|].
  cbn in E. injection E as E1 E2. f_equal; auto.
Qed.

Lemma json_of_logEntry_inj (a b : LogEntry.t) :
  json_of_logEntry a = json_of_logEntry b -> a = b.
Proof.
  destruct a as [ty tx [ar|] ts], b as [ty' tx' [ar'|] ts'];
    unfold json_of_logEntry; cbn; intros E; try discriminate;
    injection E; intros; subst; [|reflexivity].
  f_equal. f_equal. apply (map_injective JSON.Str); [|assumption].
  now intros x y [= ->].
Qed.

Lemma json_of_netEntry_inj (a b : NetEntry.t) :
  json_of_netEntry a = json_of_netEntry b -> a = b.
Proof.
  destruct a as [u s m ty [e|] ts], b as [u' s' m' ty' [e'|] ts'];
    unfold json_of_netEntry; cbn; intros E; try discriminate;
    injection E; intros; subst; reflexivity.
Qed.

Lemma json_of_logs_inj (l l' : list LogEntry.t) :
  json_of_logs l = json_of_logs l' -> l = l'.
Proof.
  unfold json_of_logs. intros [= E].
  exact (map_injective _ _ _ json_of_logEntry_inj E).
Qed.

Lemma json_of_networkLogs_inj (l l' : list NetEntry.t) :
  json_of_networkLogs l = json_of_networkLogs l' -> l = l'.
Proof.
  unfold json_of_networkLogs. intros [= E].
  exact (map_injective _ _ _ json_of_netEntry_inj E).
Qed.

(** The two text columns of an inserted row read back as the buffers. *)
Lemma inserted_row_columns (sc : Scenario) (url : string) (d : Db)
    (r : ScanRow.t) :
  inserted_row sc url d = Some r ->
  JSON.parse (ScanRow.logs r)
  = Some (json_of_logs (captured_logs (observed sc))) /\
  JSON.parse (ScanRow.network r)
  = Some (json_of_networkLogs (captured_network (observed sc))) /\
  ScanRow.error_count r = count_type "error" (captured_logs (observed sc)) /\
  ScanRow.warn_count r = count_type "warn" (captured_logs (observed sc)) /\
  ScanRow.id r = next_rowid d /\ ScanRow.url r = url.
Proof.
  intros R.
  destruct (inserted_row_success sc url d (inserted_row_inv _ _ _ _ R))
    as (shot & now & _ & _ & _ & _ & R').
  rewrite R' in R.
  assert (E : forall a b : ScanRow.t, Some a = Some b -> a = b)
    by congruence.
  apply E in R. subst r.
  cbn [ScanRow.logs ScanRow.network ScanRow.error_count ScanRow.warn_count
       ScanRow.id ScanRow.url].
  now rewrite !JSONFacts.parse_stringify.
Qed.

Lemma observed_in_all_events (sc : Scenario) (ev : PageEvent) :
  In ev (observed sc ++ closing sc) -> In ev (all_events sc).
Proof.
  unfold observed, closing, all_events. intros H.
  apply in_app_or in H. rewrite !in_app_iff. destruct H as [H|H].
  - destruct (navigated sc); [|contradiction].
    apply in_app_or in H. destruct H as [H|H]; [now left|].
    destruct (goto_result sc); [|contradiction]. right. now left.
  - destruct (launch_result sc); [|contradiction]. right. now right.
Qed.

(** Every network entry a run makes visible was captured by a callback. *)
Lemma net_seen_captured (sc : Scenario) (url : string) (d : Db)
    (n : NetEntry.t) :
  net_seen d (snd (run_scan sc url d)) n ->
  In n (captured_network (observed sc ++ closing sc)).
Proof.
  rewrite run_scan_state, captured_network_app, in_app_iff.
  intros [H|[H|H]].
  - unfold net_published, final_state in H. cbn [out] in H.
    assert (P : forall evs, In (NetworkLog n) (published evs) ->
                            In n (captured_network evs)).
    { intros evs Hp. destruct (published_kind evs _ Hp)
        as [(l & E & _)|(n' & E & Hn)]; [discriminate|].
      now injection E as ->. }
    apply in_app_or in H. destruct H as [H|H]; [left; now apply P|].
    apply in_app_or in H. destruct H as [H|H]; [|right; now apply P].
    unfold verdict in H. apply in_app_or in H. destruct H as [H|H].
    + destruct (screenshot_taken sc); [|contradiction].
      destruct H as [H|[]]. discriminate.
    + destruct (failure_of sc); cbn in H; intuition discriminate.
  - unfold final_state in H. cbn [networkLogs] in H.
    now apply in_app_or in H.
  - destruct H as (r & ns & Hr & P & Hn). rewrite new_rows_final in Hr.
    destruct (inserted_row sc url d) as [r'|] eqn:R; [|contradiction].
    destruct Hr as [<-|[]].
    destruct (inserted_row_columns sc url d r' R) as (_ & P' & _).
    rewrite P' in P.
    assert (E : captured_network (observed sc) = ns).
    { apply json_of_networkLogs_inj. congruence. }
    left. now rewrite E.
Qed.

Lemma count_type_count_occ (ty : string) (ls : list LogEntry.t) :
  count_type ty ls
  = Z.of_nat (count_occ string_dec (map LogEntry.type ls) ty).
Proof.
  unfold count_type. f_equal.
  induction ls as [|l ls IH]; [reflexivity|].
  cbn [filter map count_occ].
  destruct (String.eqb_spec (LogEntry.type l) ty) as [E|E];
    destruct (string_dec (LogEntry.type l) ty); try contradiction;
    cbn [List.length]; now rewrite IH.
Qed.

(** ** The store *)

Lemma ascii_compare_N (a b : ascii) :
  Ascii.compare a b = N.compare (N_of_ascii a) (N_of_ascii b).
Proof. reflexivity. Qed.

Lemma string_leb_trans (s1 s2 s3 : string) :
  String.leb s1 s2 = true -> String.leb s2 s3 = true ->
  String.leb s1 s3 = true.
Proof.
  unfold String.leb. revert s2 s3.
  induction s1 as [|a s1 IH]; intros [|b s2] [|c s3]; cbn [String.compare];
    try (intros; reflexivity); try (intros; discriminate).
  rewrite !ascii_compare_N.
  destruct (N.compare_spec (N_of_ascii a) (N_of_ascii b)) as [E1|L1|G1];
    destruct (N.compare_spec (N_of_ascii b) (N_of_ascii c)) as [E2|L2|G2];
    destruct (N.compare_spec (N_of_ascii a) (N_of_ascii c)) as [E3|L3|G3];
    intros H1 H2; try reflexivity; try discriminate; try lia.
  now apply (IH s2 s3).
Qed.

Lemma not_ltb_leb (s1 s2 : string) :
  String.ltb s1 s2 = false -> String.leb s2 s1 = true.
Proof.
  unfold String.ltb, String.leb. rewrite (String.compare_antisym s2 s1).
  now destruct (String.compare s1 s2).
Qed.

Lemma ltb_leb (s1 s2 : string) :
  String.ltb s1 s2 = true -> String.leb s1 s2 = true.
Proof. unfold String.ltb, String.leb. now destruct (String.compare s1 s2). Qed.

Lemma insert_desc_perm (r : ScanRow.t) (l : list ScanRow.t) :
  Permutation (insert_desc r l) (r :: l).
Proof.
  induction l as [|x l IH]; cbn [insert_desc]; [reflexivity|].
  destruct (String.ltb _ _); [|reflexivity].
  rewrite IH. apply perm_swap.
Qed.

Lemma order_by_timestamp_desc_perm (rows : list ScanRow.t) :
  Permutation (order_by_timestamp_desc rows) rows.
Proof.
  induction rows as [|r rows IH]; [reflexivity|].
  cbn [order_by_timestamp_desc fold_right].
  fold (order_by_timestamp_desc rows).
  rewrite insert_desc_perm. now constructor.
Qed.

Lemma insert_desc_sorted (r : ScanRow.t) (l : list ScanRow.t) :
  StronglySorted row_order l -> StronglySorted row_order (insert_desc r l).
Proof.
  induction 1 as [|x l Hl IH Hx]; cbn [insert_desc].
  - repeat constructor.
  - destruct (String.ltb (ScanRow.timestamp r) (ScanRow.timestamp x)) eqn:C.
    + constructor; [exact IH|].
      apply Forall_forall. intros y Hy.
      apply (Permutation_in _ (insert_desc_perm r l)) in Hy.
      destruct Hy as [<-|Hy].
      * now apply ltb_leb.
      * rewrite Forall_forall in Hx. now apply Hx.
    + apply not_ltb_leb in C.
      constructor; [now constructor|].
      constructor; [exact C|].
      apply Forall_forall. intros y Hy. rewrite Forall_forall in Hx.
      unfold row_order, newer_or_equal in *.
      apply (string_leb_trans _ (ScanRow.timestamp x)); auto.
Qed.

Lemma order_by_timestamp_desc_sorted (rows : list ScanRow.t) :
  StronglySorted row_order (order_by_timestamp_desc rows).
Proof.
  induction rows as [|r rows IH]; [constructor|].
  now apply insert_desc_sorted.
Qed.

Lemma sorted_app {A} (R : A -> A -> Prop) (l1 l2 : list A) :
  StronglySorted R (l1 ++ l2) ->
  StronglySorted R l1 /\ (forall a b, In a l1 -> In b l2 -> R a b).
Proof.
  induction l1 as [|x l1 IH]; cbn [app]; intros H.
  - split; [constructor | intros a b []].
  - inversion H as [|? ? Hs Hx]; subst. destruct (IH Hs) as [S1 S2].
    rewrite Forall_forall in Hx. split.
    + constructor; [exact S1|]. apply Forall_forall. intros y Hy.
      apply Hx. apply in_or_app. now left.
    + intros a b [<-|Ha] Hb; [|now apply S2].
      apply Hx. apply in_or_app. now right.
Qed.

Lemma sorted_map {A B} (f : A -> B) (R : B -> B -> Prop) (l : list A) :
  StronglySorted (fun a b => R (f a) (f b)) l -> StronglySorted R (map f l).
Proof.
  induction 1 as [|x l Hl IH Hx]; cbn [map]; constructor; [exact IH|].
  rewrite Forall_forall in *. intros y Hy. apply in_map_iff in Hy.
  destruct Hy as (z & <- & Hz). now apply Hx.
Qed.

(** Every rowid in use is below the next one. *)
Lemma rowid_below_next (d : Db) (r : ScanRow.t) :
  In r (scans d) -> ScanRow.id r < next_rowid d.
Proof.
  unfold next_rowid, max_rowid. intros H.
  assert (ScanRow.id r <= fold_right Z.max 0 (map ScanRow.id (scans d))).
  { induction (scans d) as [|x l IH]; [contradiction|].
    cbn [map fold_right]. destruct H as [->|H]; [lia|].
    specialize (IH H). lia. }
  lia.
Qed.

Lemma find_app_last {A} (f : A -> bool) (l : list A) (x : A) :
  (forall y, In y l -> f y = false) -> f x = true ->
  find f (l ++ [x]) = Some x.
Proof.
  intros Hl Hx. induction l as [|y l IH]; cbn [app find].
  - now rewrite Hx.
  - rewrite (Hl y (or_introl eq_refl)). apply IH.
    intros z Hz. apply Hl. now right.
Qed.

Lemma find_none_iff {A} (f : A -> bool) (l : list A) :
  (forall y, In y l -> f y = false) -> find f l = None.
Proof.
  induction l as [|y l IH]; intros H; [reflexivity|].
  cbn [find]. rewrite (H y (or_introl eq_refl)). apply IH.
  intros z Hz. apply H. now right.
Qed.

Lemma final_db_scans (sc : Scenario) (url : string) (d : Db) :
  scans (final_db sc url d)
  = (scans d ++ match inserted_row sc url d with
                | Some r => [r]
                | None => []
                end)%list.
Proof.
  unfold final_db. destruct (inserted_row sc url d); cbn [scans];
    [reflexivity | now rewrite List.app_nil_r].
Qed.

Lemma captured_network_ok (evs : list PageEvent) :
  Forall net_entry_ok (captured_network evs).
Proof.
  apply Forall_forall. intros n Hn.
  destruct (captured_network_origin evs n Hn)
    as (D & [(u & s & m & rt & now & _ & ->)
            |(u & m & rt & f & now & _ & ->)]);
    (split; [exact D|]); cbn; congruence.
Qed.

(** In a reachable store the rowids are distinct and every row is as the
    handler wrote it. *)
Lemma reachable_invariant (d : Db) :
  reachable d ->
  NoDup (map ScanRow.id (scans d)) /\
  forall r, In r (scans d) -> stored_row_ok r.
Proof.
  induction 1 as [|sc url d Hd [ND HB]]; [split; [constructor | intros r []]|].
  rewrite run_scan_state. unfold final_state. cbn [db].
  rewrite final_db_scans.
  destruct (inserted_row sc url d) as [r|] eqn:R;
    [|rewrite List.app_nil_r; now split].
  destruct (inserted_row_success sc url d (inserted_row_inv _ _ _ _ R))
    as (shot & now & _ & _ & _ & _ & R').
  rewrite R' in R.
  assert (E : forall a b : ScanRow.t, Some a = Some b -> a = b)
    by congruence.
  apply E in R. split.
  - rewrite map_app. cbn [map].
    apply NoDup_app; [exact ND | repeat constructor; intros [] |].
    intros i Hin [<-|[]]. apply in_map_iff in Hin.
    destruct Hin as (x & Ex & Hx).
    apply rowid_below_next in Hx. subst r. cbn [ScanRow.id] in Ex. lia.
  - intros x Hx. apply in_app_or in Hx. destruct Hx as [Hx|[<-|[]]];
      [now apply HB|].
    subst r. eexists _, _.
    split; [split; reflexivity|].
    do 2 (split; [reflexivity|]).
    split; [discriminate | apply captured_network_ok].
Qed.

(** What a row of a reachable store parses back to. *)
Lemma reachable_row_parses (d : Db) (r : ScanRow.t) :
  reachable d -> In r (scans d) ->
  exists ls ns,
    JSON.parse (ScanRow.logs r) = Some (json_of_logs ls) /\
    JSON.parse (ScanRow.network r) = Some (json_of_networkLogs ns) /\
    ScanRow.error_count r = count_type "error" ls /\
    ScanRow.warn_count r = count_type "warn" ls /\
    ScanRow.screenshot r <> None /\
    Forall net_entry_ok ns.
Proof.
  intros Hd Hr. destruct (reachable_invariant d Hd) as [_ HB].
  destruct (HB r Hr) as (ls & ns & [L N] & Ec & Wc & Sh & Ok).
  exists ls, ns. rewrite L, N, !JSONFacts.parse_stringify. repeat split;
    assumption.
Qed.

(** ** The stream, message by message *)

Lemma console_payloads_app (a b : list Emit) :
  console_payloads (a ++ b) = (console_payloads a ++ console_payloads b)%list.
Proof. apply flat_map_app. Qed.

Lemma network_payloads_app (a b : list Emit) :
  network_payloads (a ++ b) = (network_payloads a ++ network_payloads b)%list.
Proof. apply flat_map_app. Qed.

Lemma payloads_of_entries (ls : list LogEntry.t) (ns : list NetEntry.t) :
  console_payloads (map ConsoleLog ls) = ls /\
  network_payloads (map ConsoleLog ls) = [] /\
  console_payloads (map NetworkLog ns) = [] /\
  network_payloads (map NetworkLog ns) = ns.
Proof.
  repeat split.
  - induction ls as [|l ls IH]; [reflexivity | cbn; now f_equal].
  - induction ls as [|l ls IH]; [reflexivity | exact IH].
  - induction ns as [|n ns IH]; [reflexivity | exact IH].
  - induction ns as [|n ns IH]; [reflexivity | cbn; now f_equal].
Qed.

Lemma payloads_of_published (evs : list PageEvent) :
  console_payloads (published evs) = captured_logs evs /\
  network_payloads (published evs) = captured_network evs.
Proof.
  induction evs as [|ev evs [IHc IHn]]; [split; reflexivity|].
  change (published (ev :: evs))
    with (emits_of_event ev ++ published evs)%list.
  change (captured_logs (ev :: evs))
    with (logs_of_event ev ++ captured_logs evs)%list.
  change (captured_network (ev :: evs))
    with (nets_of_event ev ++ captured_network evs)%list.
  unfold emits_of_event.
  destruct (payloads_of_entries (logs_of_event ev) (nets_of_event ev))
    as (E1 & E2 & E3 & E4).
  rewrite !console_payloads_app, !network_payloads_app, E1, E2, E3, E4,
    IHc, IHn.
  now rewrite List.app_nil_r.
Qed.

Lemma payloads_of_verdict (sc : Scenario) (d : Db) :
  network_payloads (verdict sc d) = [] /\
  console_payloads (verdict sc d)
  = match failure_of sc with
    | Some e => [failure_entry e (catch_clock sc)]
    | None => []
    end.
Proof.
  unfold verdict.
  destruct (screenshot_taken sc), (failure_of sc); split; reflexivity.
Qed.

Lemma until_complete_app (pre post : list Emit) (p : CompletePayload) :
  filter is_scan_complete pre = [] ->
  until_complete (pre ++ ScanComplete p :: post) = pre.
Proof.
  induction pre as [|m pre IH]; intros H; [reflexivity|].
  cbn [app until_complete]. cbn [filter] in H.
  destruct (is_scan_complete m); [discriminate|]. now rewrite IH.
Qed.


(** ** Reading stored entries back *)

Lemma read_all_map {A B} (f : A -> option B) (g : B -> A) (l : list B) :
  (forall y, f (g y) = Some y) -> read_all f (map g l) = Some l.
Proof.
  intros H. induction l as [|y l IH]; [reflexivity|].
  cbn [map read_all]. now rewrite H, IH.
Qed.

Lemma logEntry_of_json_of_logEntry (l : LogEntry.t) :
  logEntry_of_json (json_of_logEntry l) = Some l.
Proof.
  destruct l as [ty tx [a|] ts]; [|reflexivity].
  unfold json_of_logEntry, logEntry_of_json.
  cbn [LogEntry.type LogEntry.text LogEntry.args LogEntry.timestamp app].
  change (prop "type" (JSON.Obj ?m)) with (Some (JSON.Str ty)).
  change (prop "text" (JSON.Obj ?m)) with (Some (JSON.Str tx)).
  change (prop "timestamp" (JSON.Obj ?m)) with (Some (JSON.Str ts)).
  change (prop "args" (JSON.Obj ?m)) with (Some (JSON.Arr (map JSON.Str a))).
  cbv iota beta.
  now rewrite (read_all_map string_of_json JSON.Str a).
Qed.

Lemma netEntry_of_json_of_netEntry (n : NetEntry.t) :
  netEntry_of_json (json_of_netEntry n) = Some n.
Proof. destruct n as [u s m ty [e|] ts]; reflexivity. Qed.

Lemma logs_of_json_of_logs (ls : list LogEntry.t) :
  logs_of_json (json_of_logs ls) = Some ls.
Proof. apply read_all_map, logEntry_of_json_of_logEntry. Qed.

Lemma networkLogs_of_json_of_networkLogs (ns : list NetEntry.t) :
  networkLogs_of_json (json_of_networkLogs ns) = Some ns.
Proof. apply read_all_map, netEntry_of_json_of_netEntry. Qed.

(** ** Selecting and ordering rows *)

Lemma select_scan_found (d : Db) (id : Z) (r : ScanRow.t) :
  NoDup (map ScanRow.id (scans d)) ->
  In r (scans d) -> ScanRow.id r = id -> select_scan id d = Some r.
Proof.
  unfold select_scan. induction (scans d) as [|x l IH]; [intros _ []|].
  cbn [map find]. intros ND Hin Hid. inversion ND as [|? ? Hx ND']; subst.
  destruct Hin as [->|Hin]; [now rewrite Z.eqb_refl|].
  destruct (Z.eqb_spec (ScanRow.id x) (ScanRow.id r)) as [E|_].
  - exfalso. apply Hx. rewrite E. now apply in_map.
  - now apply IH.
Qed.

Lemma api_history_id_decodes (d : Db) (id : Z) (r : ScanRow.t)
    (ls : list LogEntry.t) (ns : list NetEntry.t) :
  select_scan id d = Some r -> holds_buffers r ls ns ->
  api_history_id None id d
  = {| status := 200; body := FullScan (full_scan r ls ns) |}.
Proof.
  intros Sel [L N]. unfold api_history_id, db_query. rewrite Sel, L, N.
  now rewrite !JSONFacts.parse_stringify.
Qed.

Lemma in_firstn {A} (n : nat) (l : list A) (x : A) :
  In x (firstn n l) -> In x l.
Proof.
  revert l. induction n as [|n IH]; intros [|y l]; cbn; try tauto.
  intros [->|H]; [now left | right; now apply IH].
Qed.

Lemma order_by_timestamp_desc_newest (rows : list ScanRow.t) (r : ScanRow.t) :
  (forall x, In x rows ->
             String.ltb (ScanRow.timestamp x) (ScanRow.timestamp r) = true) ->
  order_by_timestamp_desc (rows ++ [r]) = r :: order_by_timestamp_desc rows.
Proof.
  induction rows as [|x rows IH]; intros H; [reflexivity|].
  cbn [app]. unfold order_by_timestamp_desc in *. cbn [fold_right].
  rewrite IH by (intros y Hy; apply H; now right).
  cbn [insert_desc]. now rewrite (H x (or_introl eq_refl)).
Qed.


Lemma order_by_timestamp_desc_increasing (rows : list ScanRow.t) :
  inserted_at_increasing_times rows ->
  order_by_timestamp_desc rows = rev rows.
Proof.
  unfold inserted_at_increasing_times.
  induction rows as [|r rows IH] using rev_ind; intros S; [reflexivity|].
  destruct (sorted_app _ _ _ S) as [S1 S2].
  rewrite order_by_timestamp_desc_newest.
  - rewrite rev_app_distr, (IH S1). reflexivity.
  - intros x Hx. apply S2; [exact Hx | now left].
Qed.

Lemma max_rowid_nonneg (rows : list ScanRow.t) : 0 <= max_rowid rows.
Proof.
  unfold max_rowid. induction rows as [|x l IH]; cbn [map fold_right]; lia.
Qed.

(** A notice after messages that hold none, followed by the messages of
    the close: it is the only notice, and the last message when the close
    brought none. *)
Lemma notice_then_close_entries (sc : Scenario) (before : list Emit)
    (p : CompletePayload) :
  filter is_scan_complete before = [] ->
  filter is_scan_complete
    (before ++ [ScanComplete p] ++ published (closing sc))%list
  = [ScanComplete p] /\
  (closing sc = [] ->
   (before ++ [ScanComplete p] ++ published (closing sc)
    = before ++ [ScanComplete p])%list /\
   last (before ++ [ScanComplete p] ++ published (closing sc))%list
        (ScanComplete p)
   = ScanComplete p).
Proof.
  intros B. split.
  - now rewrite !filter_app, B, published_not_complete.
  - intros ->. cbn [published flat_map app].
    split; [reflexivity|]. apply last_last.
Qed.

(** What the client was sent before the notice of a successful run. *)
Lemma stream_before_notice (sc : Scenario) (url : string) (d : Db) :
  failure_of sc = None ->
  console_payloads (until_complete (out (final_state sc url d)))
  = captured_logs (observed sc) /\
  network_payloads (until_complete (out (final_state sc url d)))
  = captured_network (observed sc).
Proof.
  intros F.
  destruct (inserted_row_success sc url d F)
    as (shot & now & _ & _ & _ & T & _).
  unfold final_state, verdict. cbn [out]. rewrite F, T.
  assert (E : (published (observed sc) ++
               ([Screenshot shot] ++
                [ScanComplete (Success (next_rowid d))]) ++
               published (closing sc))%list
              = ((published (observed sc) ++ [Screenshot shot]) ++
                 ScanComplete (Success (next_rowid d)) ::
                 published (closing sc))%list)
    by now rewrite <- !List.app_assoc.
  rewrite E, until_complete_app.
  - destruct (payloads_of_published (observed sc)) as [Oc On].
    rewrite console_payloads_app, network_payloads_app, Oc, On.
    cbn. rewrite !List.app_nil_r. split; reflexivity.
  - now rewrite filter_app, published_not_complete.
Qed.

(** The answer for a row of a store the handler wrote. *)
Lemma api_history_id_of_row (d : Db) (r : ScanRow.t) :
  reachable d -> In r (scans d) ->
  exists ls ns,
    holds_buffers r ls ns /\
    ScanRow.error_count r = count_type "error" ls /\
    ScanRow.warn_count r = count_type "warn" ls /\
    api_history_id None (ScanRow.id r) d
    = {| status := 200; body := FullScan (full_scan r ls ns) |}.
Proof.
  intros Hd Hin. destruct (reachable_invariant d Hd) as [ND HB].
  destruct (HB r Hin) as (ls & ns & B & Ec & Wc & _). exists ls, ns.
  repeat split; try assumption; try apply B.
  apply api_history_id_decodes; [|exact B].
  now apply select_scan_found.
Qed.

(** The answer for the row a successful run has just inserted. *)
Lemma api_history_id_after_scan (sc : Scenario) (url : string) (d : Db) :
  failure_of sc = None ->
  exists r,
    inserted_row sc url d = Some r /\
    api_history_id None (next_rowid d) (db (final_state sc url d))
    = {| status := 200;
         body := FullScan
           (full_scan r (captured_logs (observed sc))
                      (captured_network (observed sc))) |}.
Proof.
  intros F.
  destruct (inserted_row_success sc url d F)
    as (shot & now & _ & _ & _ & _ & R).
  eexists. split; [exact R|].
  apply api_history_id_decodes.
  - unfold select_scan, final_state. cbn [db]. rewrite final_db_scans, R.
    apply find_app_last.
    + intros y Hy. apply rowid_below_next in Hy.
      apply Z.eqb_neq. lia.
    + apply Z.eqb_refl.
  - split; reflexivity.
Qed.

(** Summaries that carry the columns of the rows carry their ids. *)
Lemma summaries_of_rows (rows : list ScanRow.t) :
  Forall2
    (fun s r =>
       Summary.id s = ScanRow.id r /\
       Summary.url s = ScanRow.url r /\
       Summary.timestamp s = ScanRow.timestamp r /\
       Summary.error_count s = ScanRow.error_count r /\
       Summary.warn_count s = ScanRow.warn_count r)
    (map summary_of rows) rows.
Proof. induction rows; constructor; [repeat split | assumption]. Qed.

Lemma summary_columns (summaries : list Summary.t) (rows : list ScanRow.t) :
  Forall2
    (fun s r =>
       Summary.id s = ScanRow.id r /\
       Summary.url s = ScanRow.url r /\
       Summary.timestamp s = ScanRow.timestamp r /\
       Summary.error_count s = ScanRow.error_count r /\
       Summary.warn_count s = ScanRow.warn_count r)
    summaries rows ->
  map Summary.id summaries = map ScanRow.id rows /\
  map Summary.url summaries = map ScanRow.url rows.
Proof.
  induction 1 as [|s r ss rs (I & U & _) _ [IHi IHu]]; [split; reflexivity|].
  cbn [map]. now rewrite I, U, IHi, IHu.
Qed.

(** The two ranges, decided. *)
Lemma current_timestamps_check (d : Db) :
  forallb (fun r => is_current_timestamp (ScanRow.timestamp r)) (scans d)
  = true ->
  current_timestamps d.
Proof. intros H r Hr. rewrite forallb_forall in H. now apply H. Qed.

Lemma increasing_times_check (rows : list ScanRow.t) :
  increasing_times rows = true -> inserted_at_increasing_times rows.
Proof.
  induction rows as [|a rows IH]; cbn [increasing_times]; intros H;
    [constructor|].
  apply andb_true_iff in H. destruct H as [Ha Hr].
  constructor; [now apply IH|].
  apply Forall_forall. rewrite forallb_forall in Ha. exact Ha.
Qed.

(** * The claims

    ** Failed scans *)

(** C1 (as stated, refuted): a scan whose navigation times out after a
    console message and a failed request were captured persists no
    record at all: the store stays empty. *)
Lemma timeout_scan_persists_no_record :
  failure_of timeout_scan = Some navigation_timeout /\
  logs (snd (run_scan timeout_scan "https://unreachable.test" empty_db))
    <> [] /\
  networkLogs (snd (run_scan timeout_scan "https://unreachable.test" empty_db))
    <> [] /\
  ~ (exists r,
       scans (db (snd (run_scan timeout_scan "https://unreachable.test"
                                empty_db)))
       = (scans empty_db ++ [r])%list).
Proof.
  repeat split; try (vm_compute; discriminate).
  intros [r H]. vm_compute in H. discriminate.
Qed.

(** C1 (amended): when the [try] block of a scan throws [e] (launch, page
    set-up, navigation, screenshot or insert), no record is persisted and
    the store is left as it was; the entries captured before the failure
    stay in the buffers and were published in capture order, and exactly
    one error-kind entry ["Failed to load page: " ++ message e] is
    published after them, without being added to the log buffer, followed
    by the error notice. *)
Theorem failed_scan_publishes_but_persists_nothing
    (sc : Scenario) (url : string) (d : Db) (e : Exn) :
  failure_of sc = Some e ->
  let st := snd (run_scan sc url d) in
  db st = d /\
  new_rows d st = [] /\
  logs st = (captured_logs (observed sc) ++ captured_logs (closing sc))%list /\
  networkLogs st
  = (captured_network (observed sc) ++ captured_network (closing sc))%list /\
  LogEntry.type (failure_entry e (catch_clock sc)) = "error" /\
  LogEntry.text (failure_entry e (catch_clock sc))
  = "Failed to load page: " ++ message e /\
  (forall l, In l (captured_logs (observed sc)) ->
             In l (logs st) /\ In (ConsoleLog l) (out st)) /\
  (forall n, In n (captured_network (observed sc)) ->
             In n (networkLogs st) /\ In (NetworkLog n) (out st)) /\
  exists shots,
    (forall m, In m shots -> is_screenshot m = true) /\
    out st
    = (published (observed sc) ++ shots ++
       [ConsoleLog (failure_entry e (catch_clock sc));
        ScanComplete (Error (message e))] ++
       published (closing sc))%list.
Proof.
  intros F st. subst st. rewrite run_scan_state.
  rewrite new_rows_final. unfold final_state, final_db, verdict.
  cbn [db logs networkLogs out].
  rewrite (inserted_row_failure sc url d e F), F.
  do 6 (split; [reflexivity|]).
  split; [|split].
  - intros l Hl. split; apply in_or_app; left;
      [exact Hl | now apply captured_logs_published].
  - intros n Hn. split; apply in_or_app; left;
      [exact Hn | now apply captured_network_published].
  - exists (match screenshot_taken sc with
            | Some shot => [Screenshot shot]
            | None => []
            end).
    split.
    + intros m Hm. destruct (screenshot_taken sc); [|contradiction].
      destruct Hm as [<-|[]]. reflexivity.
    + now rewrite <- !List.app_assoc.
Qed.

Lemma failed_scan_publishes_but_persists_nothing_witness :
  failure_of timeout_scan = Some navigation_timeout /\
  db (snd (run_scan timeout_scan "https://unreachable.test" empty_db))
  = empty_db.
Proof.
  split; [reflexivity|].
  exact (proj1 (failed_scan_publishes_but_persists_nothing
                  timeout_scan "https://unreachable.test" empty_db
                  navigation_timeout eq_refl)).
Defined.

(** C2 (as stated, refuted): launch and navigation succeed, the
    screenshot call throws; the client gets the error notice, never a
    success notice, and no record is inserted. *)
Lemma screenshot_failure_fails_the_scan :
  goto_result screenshot_failure_scan = Normal tt /\
  screenshot_result screenshot_failure_scan = Throw screenshot_error /\
  In (ScanComplete (Error (message screenshot_error)))
     (out (snd (run_scan screenshot_failure_scan "https://example.com"
                         empty_db))) /\
  (forall scanId,
     ~ In (ScanComplete (Success scanId))
          (out (snd (run_scan screenshot_failure_scan "https://example.com"
                              empty_db)))) /\
  scans (db (snd (run_scan screenshot_failure_scan "https://example.com"
                           empty_db))) = [].
Proof.
  repeat split.
  - vm_compute. tauto.
  - intros scanId H. vm_compute in H.
    repeat (destruct H as [H|H]; [discriminate|]). exact H.
Qed.

(** C2 (amended): when launch, page set-up and navigation succeed and the
    screenshot call throws [e], the scan ends in error: the store is left
    as it was, no [screenshot] message is emitted, and after the entries
    captured so far the client receives the error entry and the notice
    [{status: error, message}] with the screenshot error's message. *)
Theorem screenshot_failure_is_fatal
    (sc : Scenario) (url : string) (d : Db) (b : Browser) (e : Exn) :
  launch_result sc = Normal b ->
  newPage_result sc = Normal tt ->
  setViewport_result sc = Normal tt ->
  goto_result sc = Normal tt ->
  screenshot_result sc = Throw e ->
  let st := snd (run_scan sc url d) in
  db st = d /\
  new_rows d st = [] /\
  screenshotBase64 st = EmptyString /\
  (forall m, In m (out st) -> is_screenshot m = false) /\
  out st
  = (published (goto_events sc ++ screenshot_events sc) ++
     [ConsoleLog (failure_entry e (catch_clock sc));
      ScanComplete (Error (message e))] ++
     published (close_events sc))%list.
Proof.
  intros La Np Sv Go Sh st. subst st. rewrite run_scan_state.
  assert (F : failure_of sc = Some e).
  { unfold failure_of. now rewrite La, Np, Sv, Go, Sh. }
  rewrite new_rows_final. unfold final_state, final_db, verdict.
  cbn [db out screenshotBase64].
  rewrite (inserted_row_failure sc url d e F), F.
  unfold screenshot_taken, observed, closing, navigated.
  rewrite La, Np, Sv, Go, Sh. cbn [app].
  repeat split.
  intros m Hm. apply in_app_or in Hm. destruct Hm as [Hm|Hm].
  - now apply published_not_screenshot in Hm.
  - destruct Hm as [<-|[<-|Hm]]; try reflexivity.
    now apply published_not_screenshot in Hm.
Qed.

Lemma screenshot_failure_is_fatal_witness :
  db (snd (run_scan screenshot_failure_scan "https://example.com" empty_db))
  = empty_db.
Proof.
  exact (proj1 (screenshot_failure_is_fatal
                  screenshot_failure_scan "https://example.com" empty_db
                  chromium screenshot_error
                  eq_refl eq_refl eq_refl eq_refl eq_refl)).
Defined.

(** ** Closing the browser *)

(** C3 (as stated, refuted): the scan succeeds and [browser.close()]
    throws; the handler itself completes with that exception. *)
Lemma close_error_propagates :
  failure_of close_failure_scan = None /\
  close_result close_failure_scan = Throw close_error /\
  fst (run_scan close_failure_scan "https://example.com" empty_db)
  = Throw close_error /\
  fst (run_scan close_failure_scan "https://example.com" empty_db)
  <> Normal tt.
Proof. repeat split; vm_compute; discriminate. Qed.

(** C3 (amended): a launched browser is closed exactly once on every
    path, and close is not called when the launch failed; the handler
    completes normally unless the close call throws: an exception of
    [browser.close()] is not absorbed, the handler completes with it. *)
Theorem browser_closed_once_close_error_propagates
    (sc : Scenario) (url : string) (d : Db) :
  let c := fst (run_scan sc url d) in
  let st := snd (run_scan sc url d) in
  match launch_result sc with
  | Normal b => browser st = Some b /\ closed st = [b] /\ c = close_result sc
  | Throw _ => browser st = None /\ closed st = [] /\ c = Normal tt
  end.
Proof.
  cbn zeta. rewrite run_scan_state, run_scan_completion.
  unfold final_state, final_completion. cbn [browser closed].
  destruct (launch_result sc); repeat split.
Qed.

(** ** The completion notice *)

(** C4 (as it is worded, the notice is not the last message): the
    response to a request the page left open arrives while the handler
    awaits [browser.close()]; the [response] callback then emits a
    [network-log] after the [scan-complete] of the successful scan. *)
Lemma late_entry_follows_the_notice :
  failure_of late_event_scan = None /\
  exists before,
    out (snd (run_scan late_event_scan "https://example.com" empty_db))
    = (before ++ [ScanComplete (Success 1); NetworkLog late_poll])%list /\
    last (out (snd (run_scan late_event_scan "https://example.com" empty_db)))
         (ScanComplete (Success 1))
    = NetworkLog late_poll.
Proof.
  split; [reflexivity|].
  exists (published (observed late_event_scan) ++
          [Screenshot "iVBORw0KGgoAAAANSUhEUg=="])%list.
  split; vm_compute; reflexivity.
Qed.

(** C4 (amended): every run emits exactly one [scan-complete].  After a
    run whose [try] block threw it carries the message of the exception
    and no row was inserted; after a run whose [try] block ended normally
    it carries, as long as the rowid is at most 2^53, the rowid of the one
    row just inserted.  The messages after it are exactly those of the
    callbacks that fire while the browser closes, each a [console-log] or
    a [network-log]; when none fires the notice is the last message. *)
Theorem scan_complete_once_then_close_entries
    (sc : Scenario) (url : string) (d : Db) :
  let st := snd (run_scan sc url d) in
  exists before payload,
    out st
    = (before ++ [ScanComplete payload] ++ published (closing sc))%list /\
    filter is_scan_complete (out st) = [ScanComplete payload] /\
    filter is_scan_complete before = [] /\
    (forall m, In m (published (closing sc)) ->
       (exists l, m = ConsoleLog l /\ In l (captured_logs (closing sc))) \/
       (exists n, m = NetworkLog n /\ In n (captured_network (closing sc)))) /\
    (closing sc = [] ->
       out st = (before ++ [ScanComplete payload])%list /\
       last (out st) (ScanComplete payload) = ScanComplete payload) /\
    match failure_of sc with
    | None =>
        next_rowid d <= max_exact_rowid ->
        exists r,
          new_rows d st = [r] /\ ScanRow.id r = next_rowid d /\
          ScanRow.url r = url /\ payload = Success (ScanRow.id r)
    | Some e => new_rows d st = [] /\ payload = Error (message e)
    end.
Proof.
  cbn zeta. rewrite run_scan_state, new_rows_final.
  unfold final_state, verdict. cbn [out].
  set (shots := match screenshot_taken sc with
                | Some shot => [Screenshot shot]
                | None => []
                end).
  assert (Hs : filter is_scan_complete shots = []).
  { subst shots. now destruct (screenshot_taken sc). }
  destruct (failure_of sc) as [e|] eqn:F.
  - set (before := (published (observed sc) ++ shots ++
                    [ConsoleLog (failure_entry e (catch_clock sc))])%list).
    assert (B : filter is_scan_complete before = []).
    { subst before. now rewrite !filter_app, published_not_complete, Hs. }
    exists before, (Error (message e)).
    replace (published (observed sc) ++
             (shots ++
              [ConsoleLog (failure_entry e (catch_clock sc));
               ScanComplete (Error (message e))]) ++
             published (closing sc))%list
      with (before ++ [ScanComplete (Error (message e))] ++
            published (closing sc))%list
      by (subst before; now rewrite <- !List.app_assoc).
    destruct (notice_then_close_entries sc before (Error (message e)) B)
      as [One Last].
    rewrite (inserted_row_failure sc url d e F).
    split; [reflexivity|]. split; [exact One|]. split; [exact B|].
    split; [apply published_kind|]. split; [exact Last|].
    split; reflexivity.
  - destruct (inserted_row_success sc url d F)
      as (shot & now & _ & _ & _ & _ & R).
    set (before := (published (observed sc) ++ shots)%list).
    assert (B : filter is_scan_complete before = []).
    { subst before. now rewrite !filter_app, published_not_complete, Hs. }
    exists before, (Success (next_rowid d)).
    replace (published (observed sc) ++
             (shots ++ [ScanComplete (Success (next_rowid d))]) ++
             published (closing sc))%list
      with (before ++ [ScanComplete (Success (next_rowid d))] ++
            published (closing sc))%list
      by (subst before; now rewrite <- !List.app_assoc).
    destruct (notice_then_close_entries sc before (Success (next_rowid d)) B)
      as [One Last].
    rewrite R.
    split; [reflexivity|]. split; [exact One|]. split; [exact B|].
    split; [apply published_kind|]. split; [exact Last|].
    intros _. eexists. repeat split.
Qed.

Lemma scan_complete_once_then_close_entries_witness :
  closing example_scan = [] /\
  next_rowid empty_db <= max_exact_rowid /\
  filter is_scan_complete
    (out (snd (run_scan example_scan "https://example.com" empty_db)))
  = [ScanComplete (Success 1)] /\
  last (out (snd (run_scan example_scan "https://example.com" empty_db)))
       (ScanComplete (Success 1))
  = ScanComplete (Success 1).
Proof.
  assert (C : closing example_scan = []) by reflexivity.
  assert (B : next_rowid empty_db <= max_exact_rowid)
    by (vm_compute; discriminate).
  destruct (scan_complete_once_then_close_entries
              example_scan "https://example.com" empty_db)
    as (before & payload & _ & One & _ & _ & Last & Row).
  change (failure_of example_scan) with (@None Exn) in Row.
  destruct (Row B) as (r & _ & Id & _ & ->).
  destruct (Last C) as [_ L].
  rewrite Id in One, L.
  change (next_rowid empty_db) with 1 in One, L.
  repeat split; assumption.
Defined.

(** ** When a row is inserted *)

(** C10 (as it is worded, the insert is not the last step): the scan
    succeeds and the row is stored; the handler then emits the notice
    that carries the rowid the insert assigned, closes the browser, and
    here the close throws, so the handler ends with an exception after
    the record was persisted. *)
Lemma notice_and_close_follow_the_insert :
  failure_of close_failure_scan = None /\
  map ScanRow.id
    (new_rows empty_db
       (snd (run_scan close_failure_scan "https://example.com" empty_db)))
  = [1] /\
  last (out (snd (run_scan close_failure_scan "https://example.com"
                           empty_db)))
       (Screenshot EmptyString)
  = ScanComplete (Success 1) /\
  closed (snd (run_scan close_failure_scan "https://example.com" empty_db))
  = [chromium] /\
  fst (run_scan close_failure_scan "https://example.com" empty_db)
  = Throw close_error.
Proof. repeat split; vm_compute; reflexivity. Qed.

(** C10 (amended): a run inserts a row exactly when launch, page set-up,
    navigation, screenshot and the insert itself all succeed; the row's
    [screenshot] is the string the screenshot call resolved to, never
    absent in a store the handler wrote, and its text columns read back
    as the entries captured during navigation and screenshot; the failure
    of any earlier step leaves the store untouched.  The insert is the
    last step that can keep the record from being stored, not the last
    step: the success notice with the row's id and the close of the
    browser follow it, and the handler ends as the close ends, with the
    row in the store either way. *)
Theorem row_inserted_only_after_screenshot
    (sc : Scenario) (url : string) (d : Db) :
  let c := fst (run_scan sc url d) in
  let st := snd (run_scan sc url d) in
  (forall r, In r (new_rows d st) -> ScanRow.screenshot r <> None) /\
  (reachable d ->
   forall r, In r (scans (db st)) -> ScanRow.screenshot r <> None) /\
  match failure_of sc with
  | Some _ => db st = d /\ new_rows d st = []
  | None =>
      exists b shot now r,
        launch_result sc = Normal b /\
        newPage_result sc = Normal tt /\
        setViewport_result sc = Normal tt /\
        goto_result sc = Normal tt /\
        screenshot_result sc = Normal shot /\
        insert_result sc = Normal now /\
        scans (db st) = (scans d ++ [r])%list /\
        new_rows d st = [r] /\
        ScanRow.screenshot r = Some shot /\
        screenshotBase64 st = shot /\
        JSON.parse (ScanRow.logs r)
        = Some (json_of_logs
                  (captured_logs (goto_events sc ++ screenshot_events sc))) /\
        JSON.parse (ScanRow.network r)
        = Some (json_of_networkLogs
                  (captured_network
                     (goto_events sc ++ screenshot_events sc))) /\
        out st
        = (published (goto_events sc ++ screenshot_events sc) ++
           [Screenshot shot; ScanComplete (Success (ScanRow.id r))] ++
           published (close_events sc))%list /\
        (exists jl jn,
           JSON.parse (ScanRow.logs r) = Some jl /\
           logs_of_json jl
           = Some (captured_logs (goto_events sc ++ screenshot_events sc)) /\
           JSON.parse (ScanRow.network r) = Some jn /\
           networkLogs_of_json jn
           = Some (captured_network
                     (goto_events sc ++ screenshot_events sc))) /\
        ScanRow.id r = next_rowid d /\
        ScanRow.url r = url /\
        ScanRow.timestamp r = now /\
        closed st = [b] /\
        c = close_result sc
  end.
Proof.
  cbn zeta. split; [|split].
  2:{ intros Hd r Hr.
      destruct (reachable_row_parses _ r (reachable_scan sc url d Hd) Hr)
        as (ls & ns & _ & _ & _ & _ & Sh & _).
      exact Sh. }
  all: rewrite ?run_scan_completion, ?run_scan_state, ?new_rows_final;
    unfold final_state, final_db, verdict, final_completion;
    cbn [db out screenshotBase64 closed].
  - intros r Hr. destruct (inserted_row sc url d) as [r'|] eqn:R;
      [|contradiction].
    destruct Hr as [<-|[]].
    destruct (inserted_row_success sc url d (inserted_row_inv _ _ _ _ R))
      as (shot & now & _ & _ & _ & _ & R').
    rewrite R' in R. injection R as <-. discriminate.
  - destruct (failure_of sc) as [e|] eqn:F.
    + now rewrite (inserted_row_failure sc url d e F).
    + destruct (failure_of_none sc F)
        as (b & shot' & now' & La & Np & Sv & Go & Sh & In).
      destruct (inserted_row_success sc url d F)
        as (shot & now & Sh' & In' & O & T & R).
      rewrite Sh in Sh'. injection Sh' as <-.
      rewrite In in In'. injection In' as <-.
      destruct (inserted_row_columns sc url d _ R) as (PL & PN & _).
      rewrite O in PL, PN.
      rewrite R, T, O. unfold closing. rewrite La.
      eexists b, shot', now', _.
      repeat match goal with |- _ /\ _ => split end;
        try (assumption || reflexivity).
      eexists _, _. split; [exact PL|]. split; [apply logs_of_json_of_logs|].
      split; [exact PN|]. apply networkLogs_of_json_of_networkLogs.
Qed.

Lemma row_inserted_only_after_screenshot_witness :
  reachable empty_db /\
  (forall r,
     In r (scans (db (snd (run_scan close_failure_scan "https://example.com"
                                    empty_db)))) ->
     ScanRow.screenshot r <> None).
Proof.
  split; [constructor|].
  destruct (row_inserted_only_after_screenshot
              close_failure_scan "https://example.com" empty_db)
    as (_ & Stored & _).
  exact (Stored reachable_empty).
Defined.

(** ** Network entries *)

(** C5 (as stated, refuted): the response of a local file arrives with
    status 0; its entry is published and stored with status 0 and no
    [errorText]. *)
Lemma local_file_entry_has_status_zero_without_errorText :
  net_published
    (snd (run_scan local_file_scan "file:///srv/site/index.html" empty_db))
    local_file_entry /\
  net_persisted empty_db
    (snd (run_scan local_file_scan "file:///srv/site/index.html" empty_db))
    local_file_entry /\
  NetEntry.status local_file_entry = 0 /\
  NetEntry.errorText local_file_entry = None /\
  ~ (NetEntry.status local_file_entry = 0 <->
     NetEntry.errorText local_file_entry <> None).
Proof.
  split; [vm_compute; tauto|].
  split.
  - eexists _, [local_file_entry].
    split; [vm_compute; left; reflexivity|].
    split; [vm_compute; reflexivity | now left].
  - repeat split. intros [H _]. now apply H.
Qed.

(** C5 (amended): every network entry a run publishes, buffers or stores
    was built by the response callback, with the status the engine
    reported and no [errorText], or by the request-failed callback, with
    status 0 and an [errorText] that is the engine's reason, or [Failed]
    when the reason is missing or empty.  So a present [errorText] always
    comes with status 0, in every row of every store the handler wrote
    too; status 0 comes with an [errorText] as long as no response of the
    run was reported with status 0. *)
Theorem net_entry_errorText_implies_status_zero
    (sc : Scenario) (url : string) (d : Db) (n : NetEntry.t) :
  (reachable d ->
   forall r ns n',
     In r (scans d) ->
     JSON.parse (ScanRow.network r) = Some (json_of_networkLogs ns) ->
     In n' ns ->
     NetEntry.errorText n' <> None -> NetEntry.status n' = 0) /\
  (net_seen d (snd (run_scan sc url d)) n ->
  ((exists u s m rt now,
      In (Response u s m rt now) (all_events sc) /\
      n = response_entry u s m rt now /\
      NetEntry.status n = s /\ NetEntry.errorText n = None) \/
   (exists u m rt f now,
      In (RequestFailed u m rt f now) (all_events sc) /\
      n = requestfailed_entry u m rt f now /\
      NetEntry.status n = 0 /\
      NetEntry.errorText n = Some (or_default f "Failed"))) /\
  (NetEntry.errorText n <> None -> NetEntry.status n = 0) /\
  ((forall u s m rt now,
      In (Response u s m rt now) (all_events sc) -> s <> 0) ->
   (NetEntry.status n = 0 <-> NetEntry.errorText n <> None)) /\
  or_default None "Failed" = "Failed" /\
  or_default (Some EmptyString) "Failed" = "Failed" /\
  (forall c s, or_default (Some (String c s)) "Failed" = String c s)).
Proof.
  split.
  { intros Hd r ns n' Hr P Hn.
    destruct (reachable_row_parses d r Hd Hr)
      as (ls & ns0 & _ & P0 & _ & _ & _ & Ok).
    assert (E : ns0 = ns).
    { apply json_of_networkLogs_inj. congruence. }
    subst ns0. rewrite Forall_forall in Ok. now apply Ok. }
  intros H. apply net_seen_captured in H.
  destruct (captured_network_origin _ _ H)
    as (_ & [(u & s & m & rt & now & Hev & ->)
            |(u & m & rt & f & now & Hev & ->)]);
    apply observed_in_all_events in Hev; cbn.
  - split; [left; exists u, s, m, rt, now; repeat split; assumption|].
    split; [congruence|].
    split; [|repeat split].
    intros Hs. specialize (Hs _ _ _ _ _ Hev). split; congruence.
  - split; [right; exists u, m, rt, f, now; repeat split; assumption|].
    split; [reflexivity|].
    split; [|repeat split].
    intros _. split; [discriminate | reflexivity].
Qed.

Lemma net_entry_errorText_implies_status_zero_witness :
  reachable example_db /\
  In example_row (scans example_db) /\
  (forall ns n',
     JSON.parse (ScanRow.network example_row)
     = Some (json_of_networkLogs ns) ->
     In n' ns -> NetEntry.errorText n' <> None -> NetEntry.status n' = 0) /\
  net_seen empty_db
    (snd (run_scan example_scan "https://example.com" empty_db))
    favicon_entry /\
  NetEntry.status favicon_entry = 0 /\
  (NetEntry.status favicon_entry = 0 <->
   NetEntry.errorText favicon_entry <> None).
Proof.
  assert (NZ : forall u s m rt now,
             In (Response u s m rt now) (all_events example_scan) -> s <> 0).
  { intros u s m rt now Hin. vm_compute in Hin.
    destruct Hin as [E|[E|[E|[E|[E|[]]]]]]; try discriminate E;
      injection E; intros; subst; discriminate. }
  assert (R : reachable example_db)
    by exact (reachable_scan example_scan "https://example.com" empty_db
                             reachable_empty).
  assert (I : In example_row (scans example_db))
    by (vm_compute; left; reflexivity).
  assert (S : net_seen empty_db
                (snd (run_scan example_scan "https://example.com" empty_db))
                favicon_entry).
  { right; left. vm_compute. right; left. reflexivity. }
  split; [exact R|]. split; [exact I|]. split.
  - intros ns n'.
    exact (proj1 (net_entry_errorText_implies_status_zero
                    example_scan "https://example.com" example_db
                    favicon_entry)
                 R example_row ns n' I).
  - split; [exact S|].
    destruct (proj2 (net_entry_errorText_implies_status_zero
                       example_scan "https://example.com" empty_db _) S)
      as (_ & Z0 & Iff & _).
    split.
    + apply Z0. intros E. discriminate E.
    + apply Iff. exact NZ.
Defined.

(** ** Derived counts *)

(** C6: the row a run inserts stores, as [error_count] and [warn_count],
    the number of entries of type [error] and of type [warn] among the
    log entries its [logs] column reads back to, which are the entries
    captured up to the insert; so the counts of every row of every store
    the handler wrote match its stored logs. *)
Theorem stored_counts_match_stored_logs
    (sc : Scenario) (url : string) (d : Db) (r : ScanRow.t) :
  (reachable d ->
   forall r', In r' (scans d) ->
   exists ls,
     JSON.parse (ScanRow.logs r') = Some (json_of_logs ls) /\
     ScanRow.error_count r'
     = Z.of_nat (count_occ string_dec (map LogEntry.type ls) "error") /\
     ScanRow.warn_count r'
     = Z.of_nat (count_occ string_dec (map LogEntry.type ls) "warn")) /\
  (In r (new_rows d (snd (run_scan sc url d))) ->
  exists ls,
    ls = captured_logs (observed sc) /\
    JSON.parse (ScanRow.logs r) = Some (json_of_logs ls) /\
    (forall ls', JSON.parse (ScanRow.logs r) = Some (json_of_logs ls') ->
                 ls' = ls) /\
    ScanRow.error_count r
    = Z.of_nat (count_occ string_dec (map LogEntry.type ls) "error") /\
    ScanRow.warn_count r
    = Z.of_nat (count_occ string_dec (map LogEntry.type ls) "warn")).
Proof.
  split.
  { intros Hd r' Hr.
    destruct (reachable_row_parses d r' Hd Hr)
      as (ls & ns & L & _ & Ec & Wc & _).
    exists ls. rewrite Ec, Wc, !count_type_count_occ. now repeat split. }
  rewrite run_scan_state, new_rows_final.
  destruct (inserted_row sc url d) as [r'|] eqn:R; [|contradiction].
  intros [<-|[]].
  destruct (inserted_row_columns sc url d r' R) as (L & _ & Ec & Wc & _).
  exists (captured_logs (observed sc)).
  split; [reflexivity|]. split; [exact L|]. split.
  - intros ls' L'. rewrite L in L'.
    symmetry. apply json_of_logs_inj. congruence.
  - rewrite Ec, Wc, !count_type_count_occ. split; reflexivity.
Qed.

Lemma stored_counts_match_stored_logs_witness :
  reachable example_db /\
  In example_row (scans example_db) /\
  In example_row
     (new_rows empty_db
        (snd (run_scan example_scan "https://example.com" empty_db))) /\
  (exists ls,
     JSON.parse (ScanRow.logs example_row) = Some (json_of_logs ls) /\
     ScanRow.error_count example_row
     = Z.of_nat (count_occ string_dec (map LogEntry.type ls) "error")) /\
  ScanRow.error_count example_row = 1 /\
  ScanRow.warn_count example_row = 0.
Proof.
  assert (R : reachable example_db)
    by exact (reachable_scan example_scan "https://example.com" empty_db
                             reachable_empty).
  assert (I : In example_row (scans example_db))
    by (vm_compute; left; reflexivity).
  assert (N : In example_row
                 (new_rows empty_db
                    (snd (run_scan example_scan "https://example.com"
                                   empty_db))))
    by (vm_compute; left; reflexivity).
  split; [exact R|]. split; [exact I|]. split; [exact N|]. split.
  - destruct (proj1 (stored_counts_match_stored_logs
                       example_scan "https://example.com" example_db
                       example_row) R example_row I)
      as (ls & P & Ec & _).
    exists ls. split; assumption.
  - destruct (proj2 (stored_counts_match_stored_logs
                       example_scan "https://example.com" empty_db
                       example_row) N)
      as (ls & -> & _ & _ & -> & ->).
    split; reflexivity.
Defined.

(** ** The [data:] filter *)

(** C7: a response or a failed request whose URL starts with [data:]
    leaves the handler's state as it is: nothing is pushed, nothing is
    emitted; no network entry a run publishes, buffers or stores has such
    a URL, and none is found in any row of a store the handler wrote. *)
Theorem data_urls_are_dropped
    (sc : Scenario) (url : string) (d : Db) (n : NetEntry.t)
    (u method resourceType now : string) (s : Z) (f : option string)
    (st0 : HState) :
  (net_seen d (snd (run_scan sc url d)) n ->
   is_data_url (NetEntry.url n) = false) /\
  (reachable d ->
   forall r ns n',
     In r (scans d) ->
     JSON.parse (ScanRow.network r) = Some (json_of_networkLogs ns) ->
     In n' ns -> is_data_url (NetEntry.url n') = false) /\
  (is_data_url u = true ->
   on_event (Response u s method resourceType now) st0 = (Normal tt, st0) /\
   on_event (RequestFailed u method resourceType f now) st0
   = (Normal tt, st0)).
Proof.
  split; [|split].
  - intros H. apply net_seen_captured in H.
    now destruct (captured_network_origin _ _ H).
  - intros Hd r ns n' Hr P Hn.
    destruct (reachable_row_parses d r Hd Hr)
      as (ls & ns0 & _ & P0 & _ & _ & _ & Ok).
    assert (E : ns0 = ns).
    { apply json_of_networkLogs_inj. congruence. }
    subst ns0. rewrite Forall_forall in Ok. now apply Ok.
  - intros D. unfold on_event, on_response, on_requestfailed.
    cbn [NetEntry.url response_entry requestfailed_entry].
    rewrite D. split; reflexivity.
Qed.

Lemma data_urls_are_dropped_witness :
  reachable example_db /\
  In example_row (scans example_db) /\
  (forall ns n',
     JSON.parse (ScanRow.network example_row)
     = Some (json_of_networkLogs ns) ->
     In n' ns -> is_data_url (NetEntry.url n') = false) /\
  net_seen empty_db
    (snd (run_scan example_scan "https://example.com" empty_db))
    favicon_entry /\
  is_data_url (NetEntry.url favicon_entry) = false /\
  is_data_url "data:image/png;base64,iVBORw0KGgo=" = true /\
  on_event (Response "data:image/png;base64,iVBORw0KGgo=" 200 "GET" "image"
                     "2026-01-15T10:30:00.150Z")
           (init_state empty_db)
  = (Normal tt, init_state empty_db).
Proof.
  assert (R : reachable example_db)
    by exact (reachable_scan example_scan "https://example.com" empty_db
                             reachable_empty).
  assert (I : In example_row (scans example_db))
    by (vm_compute; left; reflexivity).
  assert (S : net_seen empty_db
                (snd (run_scan example_scan "https://example.com" empty_db))
                favicon_entry).
  { right; left. vm_compute. right; left. reflexivity. }
  split; [exact R|]. split; [exact I|]. split; [|split; [exact S|split]].
  - intros ns n'.
    exact (proj1 (proj2 (data_urls_are_dropped
                           example_scan "https://example.com" example_db
                           favicon_entry
                           "data:image/png;base64,iVBORw0KGgo=" "GET" "image"
                           "2026-01-15T10:30:00.150Z" 200 None
                           (init_state empty_db)))
                 R example_row ns n' I).
  - exact (proj1 (data_urls_are_dropped
                    example_scan "https://example.com" empty_db
                    favicon_entry
                    "data:image/png;base64,iVBORw0KGgo=" "GET" "image"
                    "2026-01-15T10:30:00.150Z" 200 None
                    (init_state empty_db)) S).
  - split; [reflexivity|].
    apply (proj2 (proj2 (data_urls_are_dropped
                           example_scan "https://example.com" empty_db
                           favicon_entry
                           "data:image/png;base64,iVBORw0KGgo=" "GET" "image"
                           "2026-01-15T10:30:00.150Z" 200 None
                           (init_state empty_db)))).
    reflexivity.
Defined.
(** ** The history list *)

(** C8 (as it is worded, "the most recently started"): the timestamp of
    a row is the time of its INSERT, which a scan reaches when it ends.
    A scan started first that takes longer is inserted last and listed
    first, above the scan that started after it. *)
Lemma slow_scan_is_listed_above_a_later_start :
  String.ltb (submitted slow_session) (submitted quick_session) = true /\
  map Summary.url
      (listed (api_history None
                 (serve [quick_session; slow_session] empty_db)))
  = ["https://slow.test"; "https://quick.test"].
Proof. split; vm_compute; reflexivity. Qed.

(** C8 (amended): on a store of N rows whose timestamps are what
    CURRENT_TIMESTAMP writes, [GET /api/history] answers 200 with
    min(N, 50) summaries, each holding the [id], [url], [timestamp],
    [error_count] and [warn_count] of one row, ordered by [timestamp]
    descending, and no row left out is newer than a row listed.  The
    timestamp is the time of the insert: when the store's clock went
    forward between the inserts, the list is the 50 rows inserted last,
    the last one first.  When the store throws the route answers 500
    with a fixed message. *)
Theorem history_lists_newest_fifty (d : Db) :
  current_timestamps d ->
  (forall e,
     api_history (Some e) d
     = {| status := 500; body := ErrorBody "Failed to fetch history" |}) /\
  exists summaries rows rest,
    api_history None d = {| status := 200; body := Summaries summaries |} /\
    Forall2
      (fun s r =>
         Summary.id s = ScanRow.id r /\
         Summary.url s = ScanRow.url r /\
         Summary.timestamp s = ScanRow.timestamp r /\
         Summary.error_count s = ScanRow.error_count r /\
         Summary.warn_count s = ScanRow.warn_count r)
      summaries rows /\
    List.length summaries = Nat.min (List.length (scans d)) 50 /\
    Permutation (rows ++ rest) (scans d) /\
    StronglySorted
      (fun a b => String.leb (Summary.timestamp b) (Summary.timestamp a)
                  = true)
      summaries /\
    (forall r x,
       In r rows -> In x rest ->
       String.leb (ScanRow.timestamp x) (ScanRow.timestamp r) = true) /\
    (inserted_at_increasing_times (scans d) ->
     rows = firstn 50 (rev (scans d))).
Proof.
  intros _. split; [reflexivity|].
  set (sorted := order_by_timestamp_desc (scans d)).
  exists (map summary_of (firstn 50 sorted)), (firstn 50 sorted),
         (skipn 50 sorted).
  pose proof (order_by_timestamp_desc_sorted (scans d)) as S.
  fold sorted in S. rewrite <- (firstn_skipn 50 sorted) in S.
  destruct (sorted_app _ _ _ S) as [S1 S2].
  split; [reflexivity|]. split; [apply summaries_of_rows|].
  split; [|split; [|split; [|split]]].
  - rewrite length_map, length_firstn. subst sorted.
    rewrite (Permutation_length (order_by_timestamp_desc_perm (scans d))).
    apply Nat.min_comm.
  - rewrite firstn_skipn. apply order_by_timestamp_desc_perm.
  - apply (sorted_map summary_of summary_order). exact S1.
  - exact S2.
  - intros Inc. subst sorted.
    now rewrite (order_by_timestamp_desc_increasing _ Inc).
Qed.

Lemma history_lists_newest_fifty_witness :
  current_timestamps (serve [quick_session; slow_session] empty_db) /\
  inserted_at_increasing_times
    (scans (serve [quick_session; slow_session] empty_db)) /\
  map Summary.id
      (listed (api_history None
                 (serve [quick_session; slow_session] empty_db)))
  = [2; 1].
Proof.
  assert (C : current_timestamps
                (serve [quick_session; slow_session] empty_db))
    by (apply current_timestamps_check; vm_compute; reflexivity).
  assert (I : inserted_at_increasing_times
                (scans (serve [quick_session; slow_session] empty_db)))
    by (apply increasing_times_check; vm_compute; reflexivity).
  split; [exact C|]. split; [exact I|].
  destruct (history_lists_newest_fifty
              (serve [quick_session; slow_session] empty_db) C)
    as (_ & summaries & rows & rest & E & Cols & _ & _ & _ & _ & Last).
  rewrite E. cbn [listed body].
  destruct (summary_columns summaries rows Cols) as [-> _].
  rewrite (Last I). vm_compute. reflexivity.
Defined.

(** On [three_rows] the newest rows come first. *)
Example history_of_three_rows :
  api_history None three_rows
  = {| status := 200;
       body := Summaries
         [Summary.mk 2 "https://b.test" "2026-01-15 10:30:04" 2 1;
          Summary.mk 3 "https://c.test" "2026-01-15 10:30:04" 0 3;
          Summary.mk 1 "https://a.test" "2026-01-15 10:30:02" 0 0] |}.
Proof. reflexivity. Qed.

(** ** One scan by id *)

(** C9 (as it is worded, "what was captured during the scan"): the row
    is written before the browser closes.  A response that arrives
    during the close is captured then: it is sent to the client and kept
    in the handler's buffer, and it is not among the network entries the
    route returns. *)
Lemma late_entry_is_published_but_not_returned :
  failure_of late_event_scan = None /\
  In (NetworkLog late_poll)
     (out (snd (run_scan late_event_scan "https://example.com" empty_db))) /\
  In late_poll
     (networkLogs
        (snd (run_scan late_event_scan "https://example.com" empty_db))) /\
  exists answer ns,
    api_history_route decimal_rowid None "1"
      (db (snd (run_scan late_event_scan "https://example.com" empty_db)))
    = {| status := 200; body := FullScan answer |} /\
    networkLogs_of_json (Scan.network answer) = Some ns /\
    ~ In late_poll ns.
Proof.
  split; [reflexivity|].
  split; [vm_compute; tauto|]. split; [vm_compute; tauto|].
  eexists _, _. split; [vm_compute; reflexivity|].
  split; [vm_compute; reflexivity|].
  intros [H|[]]. discriminate H.
Qed.

(** C9 (amended): [GET /api/history/:id] answers 500 when the store
    throws and 404 when the route text equals the id of no row.  When it
    equals the id of a row of a store the handler wrote, the route
    answers 200 with that row: its columns, with [logs] and [network]
    parsed, and these read as lists of log and network entries.  For the
    row a successful run inserted they are, in content and order, the
    entries captured during navigation and screenshot, which are the
    entries the client was sent before the [scan-complete] notice;
    entries captured while the browser closes are not among them. *)
Theorem history_by_id_returns_the_stored_entries
    (rowid_of_text : string -> option Z) (param : string)
    (d : Db) (sc : Scenario) (url : string) :
  (forall e,
     api_history_route rowid_of_text (Some e) param d
     = {| status := 500; body := ErrorBody "Failed to fetch scan" |}) /\
  ((forall r, In r (scans d) -> rowid_of_text param <> Some (ScanRow.id r)) ->
   api_history_route rowid_of_text None param d
   = {| status := 404; body := ErrorBody "Scan not found" |}) /\
  (reachable d ->
   forall r, In r (scans d) -> rowid_of_text param = Some (ScanRow.id r) ->
   exists answer ls ns,
     api_history_route rowid_of_text None param d
     = {| status := 200; body := FullScan answer |} /\
     Scan.id answer = ScanRow.id r /\
     Scan.url answer = ScanRow.url r /\
     Scan.timestamp answer = ScanRow.timestamp r /\
     Scan.screenshot answer = ScanRow.screenshot r /\
     Scan.error_count answer = ScanRow.error_count r /\
     Scan.warn_count answer = ScanRow.warn_count r /\
     JSON.parse (ScanRow.logs r) = Some (Scan.logs answer) /\
     JSON.parse (ScanRow.network r) = Some (Scan.network answer) /\
     logs_of_json (Scan.logs answer) = Some ls /\
     networkLogs_of_json (Scan.network answer) = Some ns) /\
  (failure_of sc = None ->
   rowid_of_text param = Some (next_rowid d) ->
   let st := snd (run_scan sc url d) in
   exists answer,
     api_history_route rowid_of_text None param (db st)
     = {| status := 200; body := FullScan answer |} /\
     Scan.id answer = next_rowid d /\
     Scan.url answer = url /\
     logs_of_json (Scan.logs answer)
     = Some (captured_logs (goto_events sc ++ screenshot_events sc)) /\
     networkLogs_of_json (Scan.network answer)
     = Some (captured_network (goto_events sc ++ screenshot_events sc)) /\
     logs_of_json (Scan.logs answer)
     = Some (console_payloads (until_complete (out st))) /\
     networkLogs_of_json (Scan.network answer)
     = Some (network_payloads (until_complete (out st))) /\
     networkLogs st
     = (captured_network (goto_events sc ++ screenshot_events sc) ++
        captured_network (closing sc))%list).
Proof.
  split; [reflexivity|]. split; [|split].
  - intros H. unfold api_history_route.
    destruct (rowid_of_text param) as [id|]; [|reflexivity].
    unfold api_history_id, db_query, select_scan.
    rewrite find_none_iff; [reflexivity|].
    intros y Hy. apply Z.eqb_neq. intros E. apply (H y Hy). now rewrite E.
  - intros Hd r Hin Hid. unfold api_history_route. rewrite Hid.
    destruct (api_history_id_of_row d r Hd Hin)
      as (ls & ns & [L N] & _ & _ & A).
    exists (full_scan r ls ns), ls, ns. rewrite A.
    cbn [full_scan Scan.id Scan.url Scan.timestamp Scan.screenshot
         Scan.error_count Scan.warn_count Scan.logs Scan.network].
    rewrite L, N, !JSONFacts.parse_stringify.
    repeat split;
      [apply logs_of_json_of_logs | apply networkLogs_of_json_of_networkLogs].
  - intros F Hid. cbn zeta. unfold api_history_route.
    rewrite Hid, run_scan_state.
    destruct (api_history_id_after_scan sc url d F) as (r & R & A).
    destruct (inserted_row_success sc url d F)
      as (shot & now & _ & _ & O & _ & R').
    destruct (inserted_row_columns sc url d r R)
      as (_ & _ & _ & _ & Id & U).
    destruct (stream_before_notice sc url d F) as [SL SN].
    exists (full_scan r (captured_logs (observed sc))
                      (captured_network (observed sc))).
    rewrite A, SL, SN.
    cbn [full_scan Scan.id Scan.url Scan.logs Scan.network].
    rewrite logs_of_json_of_logs, networkLogs_of_json_of_networkLogs.
    unfold final_state. cbn [networkLogs]. rewrite O.
    repeat split; assumption.
Qed.

Lemma history_by_id_returns_the_stored_entries_witness :
  api_history_route decimal_rowid None "7" example_db
  = {| status := 404; body := ErrorBody "Scan not found" |} /\
  reachable example_db /\
  In example_row (scans example_db) /\
  decimal_rowid "1" = Some (ScanRow.id example_row) /\
  (exists answer ls ns,
     api_history_route decimal_rowid None "1" example_db
     = {| status := 200; body := FullScan answer |} /\
     Scan.url answer = ScanRow.url example_row /\
     logs_of_json (Scan.logs answer) = Some ls /\
     networkLogs_of_json (Scan.network answer) = Some ns) /\
  exists answer,
    api_history_route decimal_rowid None "1"
      (db (snd (run_scan example_scan "https://example.com" empty_db)))
    = {| status := 200; body := FullScan answer |} /\
    logs_of_json (Scan.logs answer)
    = Some (captured_logs
              (goto_events example_scan ++ screenshot_events example_scan)).
Proof.
  assert (Hd : reachable example_db)
    by exact (reachable_scan example_scan "https://example.com" empty_db
                             reachable_empty).
  assert (Hin : In example_row (scans example_db))
    by (vm_compute; left; reflexivity).
  assert (Hid : decimal_rowid "1" = Some (ScanRow.id example_row))
    by (vm_compute; reflexivity).
  split; [|split; [exact Hd|split; [exact Hin|split; [exact Hid|split]]]].
  - apply (history_by_id_returns_the_stored_entries
             decimal_rowid "7" example_db example_scan "https://example.com").
    assert (E : map ScanRow.id (scans example_db) = [1])
      by (vm_compute; reflexivity).
    assert (P : decimal_rowid "7" = Some 7) by (vm_compute; reflexivity).
    intros r Hr. apply (in_map ScanRow.id) in Hr. rewrite E in Hr.
    destruct Hr as [<-|[]]. rewrite P. intros Q. discriminate Q.
  - destruct (history_by_id_returns_the_stored_entries
                decimal_rowid "1" example_db example_scan
                "https://example.com")
      as (_ & _ & Row & _).
    destruct (Row Hd example_row Hin Hid)
      as (answer & ls & ns & A & _ & U & _ & _ & _ & _ & _ & _ & L & N).
    exists answer, ls, ns. repeat split; assumption.
  - destruct (history_by_id_returns_the_stored_entries
                decimal_rowid "1" empty_db example_scan
                "https://example.com")
      as (_ & _ & _ & New).
    assert (F : failure_of example_scan = None) by reflexivity.
    assert (P : decimal_rowid "1" = Some (next_rowid empty_db))
      by (vm_compute; reflexivity).
    destruct (New F P) as (answer & A & _ & _ & L & _).
    exists answer. split; assumption.
Defined.

(** * Further properties of the server

    ** The socket stream and the buffers *)

(** X1: in every run the entries of the [network-log] messages are the
    entries of [networkLogs], in the same order.  The entries of the
    [console-log] messages are those of [logs] when the [try] block ended
    normally.  When it threw, [logs] holds the entries captured before the
    failure followed by those captured during the close, and the client
    was sent the same entries with one more between the two: the entry
    the [catch] block emits, which is not added to [logs]. *)
Theorem stream_agrees_with_buffers
    (sc : Scenario) (url : string) (d : Db) :
  let st := snd (run_scan sc url d) in
  network_payloads (out st) = networkLogs st /\
  logs st = (captured_logs (observed sc) ++ captured_logs (closing sc))%list /\
  match failure_of sc with
  | None => console_payloads (out st) = logs st
  | Some e =>
      console_payloads (out st)
      = (captured_logs (observed sc) ++
         [failure_entry e (catch_clock sc)] ++
         captured_logs (closing sc))%list /\
      List.length (console_payloads (out st)) = S (List.length (logs st))
  end.
Proof.
  cbn zeta. rewrite run_scan_state. unfold final_state.
  cbn [out logs networkLogs].
  destruct (payloads_of_published (observed sc)) as [Oc On].
  destruct (payloads_of_published (closing sc)) as [Cc Cn].
  destruct (payloads_of_verdict sc d) as [Vn Vc].
  rewrite !console_payloads_app, !network_payloads_app, Oc, On, Cc, Cn, Vn, Vc.
  split; [reflexivity|]. split; [reflexivity|].
  destruct (failure_of sc) as [e|]; [|reflexivity].
  split; [reflexivity|].
  rewrite !length_app. cbn [List.length]. lia.
Qed.

(** X2: after a run whose [try] block ended normally, the inserted row
    stores exactly what the client was sent before the [scan-complete]
    notice: its [logs] column parses and reads as the entries of the
    [console-log] messages, its [network] column as those of the
    [network-log] messages, in the order sent. *)
Theorem stored_row_is_the_stream_before_the_notice
    (sc : Scenario) (url : string) (d : Db) :
  failure_of sc = None ->
  let st := snd (run_scan sc url d) in
  exists r jl jn,
    new_rows d st = [r] /\
    JSON.parse (ScanRow.logs r) = Some jl /\
    logs_of_json jl = Some (console_payloads (until_complete (out st))) /\
    JSON.parse (ScanRow.network r) = Some jn /\
    networkLogs_of_json jn
    = Some (network_payloads (until_complete (out st))).
Proof.
  intros F. cbn zeta. rewrite run_scan_state, new_rows_final.
  destruct (inserted_row_success sc url d F)
    as (shot & now & _ & _ & _ & _ & R).
  destruct (inserted_row_columns sc url d _ R) as (PL & PN & _).
  destruct (stream_before_notice sc url d F) as [SL SN].
  rewrite R, SL, SN. eexists _, _, _. split; [reflexivity|].
  split; [exact PL|]. split; [apply logs_of_json_of_logs|].
  split; [exact PN|]. apply networkLogs_of_json_of_networkLogs.
Qed.

Lemma stored_row_is_the_stream_before_the_notice_witness :
  failure_of example_scan = None /\
  exists r jl,
    new_rows empty_db
      (snd (run_scan example_scan "https://example.com" empty_db)) = [r] /\
    JSON.parse (ScanRow.logs r) = Some jl /\
    logs_of_json jl
    = Some (console_payloads
              (until_complete
                 (out (snd (run_scan example_scan "https://example.com"
                                     empty_db))))).
Proof.
  split; [reflexivity|].
  destruct (stored_row_is_the_stream_before_the_notice
              example_scan "https://example.com" empty_db eq_refl)
    as (r & jl & jn & N & P & L & _).
  exists r, jl. repeat split; assumption.
Defined.

(** ** What counts as an error *)

Lemma count_type_app (ty : string) (a b : list LogEntry.t) :
  count_type ty (a ++ b) = count_type ty a + count_type ty b.
Proof.
  unfold count_type. rewrite filter_app, List.length_app.
  apply Nat2Z.inj_add.
Qed.

Lemma count_type_events (evs : list PageEvent) :
  count_type "error" (captured_logs evs)
  = Z.of_nat (List.length (filter is_error_event evs)) /\
  count_type "warn" (captured_logs evs)
  = Z.of_nat (List.length (filter is_warn_event evs)).
Proof.
  induction evs as [|ev evs [IHe IHw]]; [split; reflexivity|].
  change (captured_logs (ev :: evs))
    with (logs_of_event ev ++ captured_logs evs)%list.
  rewrite !count_type_app, IHe, IHw. cbn [filter].
  destruct ev as [ty tx ar now|err now|u s m rt now|u m rt f now];
    cbn [logs_of_event is_error_event is_warn_event];
    try (split; reflexivity).
  - unfold count_type. cbn [filter console_entry LogEntry.type].
    destruct (String.eqb ty "error"), (String.eqb ty "warn");
      cbn [List.length]; split; lia.
  - change (count_type "error" [pageerror_entry err now]) with 1.
    change (count_type "warn" [pageerror_entry err now]) with 0.
    cbn [List.length]. split; lia.
Qed.

(** X3: the [error_count] of an inserted row is the number of page
    errors plus the number of console messages of type [error] that
    fired before the insert, and its [warn_count] the number of console
    messages of type [warn]: an uncaught page error always counts as an
    error and never as a warning; responses and failed requests count as
    neither. *)
Theorem counts_are_counts_of_events
    (sc : Scenario) (url : string) (d : Db) (r : ScanRow.t) :
  In r (new_rows d (snd (run_scan sc url d))) ->
  ScanRow.error_count r
  = Z.of_nat (List.length
                (filter is_error_event
                        (goto_events sc ++ screenshot_events sc))) /\
  ScanRow.warn_count r
  = Z.of_nat (List.length
                (filter is_warn_event
                        (goto_events sc ++ screenshot_events sc))).
Proof.
  rewrite run_scan_state, new_rows_final.
  destruct (inserted_row sc url d) as [r'|] eqn:R; [|contradiction].
  intros [<-|[]].
  destruct (inserted_row_columns sc url d r' R) as (_ & _ & Ec & Wc & _).
  destruct (inserted_row_success sc url d (inserted_row_inv _ _ _ _ R))
    as (_ & _ & _ & _ & O & _).
  rewrite Ec, Wc, O.
  apply count_type_events.
Qed.

Lemma counts_are_counts_of_events_witness :
  In (hd example_row (new_rows example_db
        (snd (run_scan second_scan "https://example.com" example_db))))
     (new_rows example_db
        (snd (run_scan second_scan "https://example.com" example_db))) /\
  ScanRow.error_count
    (hd example_row (new_rows example_db
        (snd (run_scan second_scan "https://example.com" example_db)))) = 1 /\
  ScanRow.warn_count
    (hd example_row (new_rows example_db
        (snd (run_scan second_scan "https://example.com" example_db)))) = 1.
Proof.
  assert (I : In (hd example_row (new_rows example_db
                    (snd (run_scan second_scan "https://example.com"
                                   example_db))))
                 (new_rows example_db
                    (snd (run_scan second_scan "https://example.com"
                                   example_db))))
    by (vm_compute; left; reflexivity).
  split; [exact I|].
  destruct (counts_are_counts_of_events
              second_scan "https://example.com" example_db _ I) as [E W].
  split; [rewrite E | rewrite W]; reflexivity.
Defined.

(** ** Records are never changed or lost *)

Lemma find_app_some {A} (f : A -> bool) (l t : list A) (x : A) :
  find f l = Some x -> find f (l ++ t) = Some x.
Proof.
  induction l as [|y l IH]; [discriminate|].
  cbn [app find]. destruct (f y); [trivial | exact IH].
Qed.

Lemma later_prefix (d d' : Db) :
  later d d' -> exists added, scans d' = (scans d ++ added)%list.
Proof.
  induction 1 as [|sc url d' _ [added E]].
  - exists []. now rewrite List.app_nil_r.
  - rewrite run_scan_state. unfold final_state. cbn [db].
    rewrite final_db_scans, E, <- List.app_assoc. eauto.
Qed.

Lemma api_history_id_ok_selects (d : Db) (id : Z) :
  status (api_history_id None id d) = 200 ->
  exists r, select_scan id d = Some r.
Proof.
  unfold api_history_id, db_query.
  destruct (select_scan id d) as [r|]; [eauto | discriminate].
Qed.

Lemma api_history_id_same_row (d d' : Db) (id : Z) :
  select_scan id d = select_scan id d' ->
  api_history_id None id d = api_history_id None id d'.
Proof. unfold api_history_id, db_query. now intros ->. Qed.

(** X4: whatever runs of the handler follow, the rows of the store stay
    where they are, unchanged, with new rows only added after them; so a
    scan that [GET /api/history/:id] once answered with 200 is answered
    with the same body ever after. *)
Theorem records_are_permanent (d d' : Db) (id : Z) :
  later d d' ->
  (exists added, scans d' = (scans d ++ added)%list) /\
  (status (api_history_id None id d) = 200 ->
   api_history_id None id d' = api_history_id None id d).
Proof.
  intros L. destruct (later_prefix d d' L) as [added E].
  split; [eauto|].
  intros Ok. destruct (api_history_id_ok_selects d id Ok) as [r Sel].
  symmetry. apply api_history_id_same_row.
  unfold select_scan in *. rewrite E, Sel. symmetry.
  now apply find_app_some.
Qed.

Lemma records_are_permanent_witness :
  later example_db second_db /\
  status (api_history_id None 1 example_db) = 200 /\
  api_history_id None 1 second_db = api_history_id None 1 example_db.
Proof.
  assert (L : later example_db second_db)
    by exact (later_scan example_db second_scan "https://example.com"
                         example_db (later_refl example_db)).
  assert (S : status (api_history_id None 1 example_db) = 200)
    by (vm_compute; reflexivity).
  split; [exact L|]. split; [exact S|].
  exact (proj2 (records_are_permanent example_db second_db 1 L) S).
Defined.

(** ** The rowids the handler reports *)

Lemma max_rowid_le (rows : list ScanRow.t) (n : Z) :
  0 <= n -> (forall r, In r rows -> ScanRow.id r <= n) -> max_rowid rows <= n.
Proof.
  intros Hn. unfold max_rowid.
  induction rows as [|x l IH]; intros H; cbn [map fold_right]; [exact Hn|].
  pose proof (H x (or_introl eq_refl)).
  assert (fold_right Z.max 0 (map ScanRow.id l) <= n).
  { apply IH. intros r Hr. apply H. now right. }
  lia.
Qed.

Lemma first_rowids_bound (n : nat) (i : Z) :
  In i (first_rowids n) -> 1 <= i <= Z.of_nat n.
Proof.
  unfold first_rowids. rewrite in_map_iff. intros (k & <- & Hk).
  apply in_seq in Hk. lia.
Qed.

Lemma first_rowids_succ (n : nat) :
  first_rowids (S n) = (first_rowids n ++ [Z.of_nat (S n)])%list.
Proof. unfold first_rowids. now rewrite seq_S, map_app. Qed.

Lemma reachable_rowids (d : Db) :
  reachable d ->
  map ScanRow.id (scans d) = first_rowids (List.length (scans d)) /\
  sqlite_sequence d = Z.of_nat (List.length (scans d)).
Proof.
  induction 1 as [|sc url d Hd [Ids Seq]]; [split; reflexivity|].
  rewrite run_scan_state. unfold final_state. cbn [db].
  unfold final_db.
  destruct (inserted_row sc url d) as [r|] eqn:R; [|now split].
  destruct (inserted_row_columns sc url d r R) as (_ & _ & _ & _ & Id & _).
  assert (N : next_rowid d = Z.of_nat (S (List.length (scans d)))).
  { unfold next_rowid. rewrite Seq.
    assert (max_rowid (scans d) <= Z.of_nat (List.length (scans d))).
    { apply max_rowid_le; [lia|]. intros x Hx.
      apply (in_map ScanRow.id) in Hx. rewrite Ids in Hx.
      apply first_rowids_bound in Hx. lia. }
    lia. }
  cbn [scans sqlite_sequence].
  rewrite length_app, map_app. cbn [List.length map].
  rewrite Nat.add_1_r, first_rowids_succ, Ids, Id, N. now split.
Qed.

(** X5: starting from the empty table, the rows carry the ids 1, 2, ...,
    N in insertion order, whatever runs failed in between; so on a store
    of N rows the next successful run reports [scanId] N + 1 and a failed
    run uses up no id. *)
Theorem rowids_count_successful_scans
    (d : Db) (sc : Scenario) (url : string) :
  reachable d ->
  map ScanRow.id (scans d) = first_rowids (List.length (scans d)) /\
  (failure_of sc = None ->
   In (ScanComplete (Success (Z.of_nat (S (List.length (scans d))))))
      (out (snd (run_scan sc url d)))) /\
  (failure_of sc <> None ->
   map ScanRow.id (scans (db (snd (run_scan sc url d))))
   = first_rowids (List.length (scans d))).
Proof.
  intros Hd. destruct (reachable_rowids d Hd) as [Ids Seq].
  split; [exact Ids|]. rewrite run_scan_state. split.
  - intros F. unfold final_state, verdict. cbn [out]. rewrite F.
    apply in_or_app. right. apply in_or_app. left.
    apply in_or_app. right. left.
    do 2 f_equal. unfold next_rowid. rewrite Seq.
    assert (max_rowid (scans d) <= Z.of_nat (List.length (scans d))).
    { apply max_rowid_le; [lia|]. intros x Hx.
      apply (in_map ScanRow.id) in Hx. rewrite Ids in Hx.
      apply first_rowids_bound in Hx. lia. }
    lia.
  - intros F. destruct (failure_of sc) as [e|] eqn:E; [|congruence].
    unfold final_state, final_db. cbn [db].
    now rewrite (inserted_row_failure sc url d e E).
Qed.

Lemma rowids_count_successful_scans_witness :
  reachable example_db /\
  failure_of second_scan = None /\
  failure_of timeout_scan <> None /\
  map ScanRow.id (scans example_db) = [1] /\
  In (ScanComplete (Success 2))
     (out (snd (run_scan second_scan "https://example.com" example_db))) /\
  map ScanRow.id
      (scans (db (snd (run_scan timeout_scan "https://unreachable.test"
                                example_db))))
  = [1].
Proof.
  assert (R : reachable example_db)
    by exact (reachable_scan example_scan "https://example.com" empty_db
                             reachable_empty).
  assert (L : List.length (scans example_db) = 1%nat)
    by (vm_compute; reflexivity).
  assert (F : failure_of timeout_scan <> None) by discriminate.
  split; [exact R|]. split; [reflexivity|]. split; [exact F|].
  destruct (rowids_count_successful_scans
              example_db second_scan "https://example.com" R)
    as (Ids & Ok & _).
  destruct (rowids_count_successful_scans
              example_db timeout_scan "https://unreachable.test" R)
    as (_ & _ & Ko).
  rewrite L in *. split; [exact Ids|]. split; [exact (Ok eq_refl)|].
  exact (Ko F).
Defined.

(** ** The newest scan comes first *)

Lemma firstn_firstn_le {A} (l : list A) :
  firstn 49 (firstn 50 l) = firstn 49 l.
Proof. rewrite firstn_firstn. reflexivity. Qed.

(** X6: when a successful run inserts its row at a time later than the
    [timestamp] of every stored row, [GET /api/history] then lists the new
    scan first, with the counts of the run, followed by the 49 first
    entries of the former list. *)
Theorem new_scan_heads_the_history
    (sc : Scenario) (url now : string) (d : Db) :
  failure_of sc = None ->
  insert_result sc = Normal now ->
  (forall x, In x (scans d) -> String.ltb (ScanRow.timestamp x) now = true) ->
  listed (api_history None (db (snd (run_scan sc url d))))
  = Summary.mk (next_rowid d) url now
               (count_type "error"
                  (captured_logs (goto_events sc ++ screenshot_events sc)))
               (count_type "warn"
                  (captured_logs (goto_events sc ++ screenshot_events sc)))
    :: firstn 49 (listed (api_history None d)).
Proof.
  intros F I Old. rewrite run_scan_state. unfold final_state. cbn [db].
  destruct (inserted_row_success sc url d F)
    as (shot & now' & _ & I' & O & _ & R).
  rewrite I in I'. injection I' as <-.
  unfold api_history, db_query, listed, select_history. cbn [body].
  rewrite final_db_scans, R.
  rewrite order_by_timestamp_desc_newest by exact Old.
  change (firstn 50 (?x :: ?l)) with (x :: firstn 49 l).
  cbn [map]. rewrite <- firstn_map, <- (firstn_map _ 50).
  rewrite firstn_firstn_le, O. reflexivity.
Qed.

Lemma new_scan_heads_the_history_witness :
  failure_of second_scan = None /\
  insert_result second_scan = Normal "2026-01-15 10:30:04" /\
  (forall x, In x (scans example_db) ->
             String.ltb (ScanRow.timestamp x) "2026-01-15 10:30:04" = true) /\
  map Summary.id (listed (api_history None second_db)) = [2; 1] /\
  map Summary.error_count (listed (api_history None second_db)) = [1; 1] /\
  map Summary.warn_count (listed (api_history None second_db)) = [1; 0].
Proof.
  assert (T : map ScanRow.timestamp (scans example_db)
              = ["2026-01-15 10:30:02"]) by (vm_compute; reflexivity).
  assert (Old : forall x, In x (scans example_db) ->
                  String.ltb (ScanRow.timestamp x) "2026-01-15 10:30:04"
                  = true).
  { intros x Hx. apply (in_map ScanRow.timestamp) in Hx. rewrite T in Hx.
    destruct Hx as [<-|[]]. reflexivity. }
  split; [reflexivity|]. split; [reflexivity|]. split; [exact Old|].
  unfold second_db.
  rewrite (new_scan_heads_the_history
             second_scan "https://example.com" "2026-01-15 10:30:04"
             example_db eq_refl eq_refl Old).
  repeat split; vm_compute; reflexivity.
Defined.

(** ** A failing INSERT *)

(** X7: when everything up to the screenshot succeeds and the INSERT
    throws [e], the client has already been sent every captured entry
    and the screenshot; it is then sent an error entry whose text says
    the page failed to load, with the store's message, and the error
    notice.  Nothing is stored and the browser is closed once. *)
Theorem insert_failure_after_screenshot
    (sc : Scenario) (url shot : string) (d : Db) (b : Browser) (e : Exn) :
  launch_result sc = Normal b ->
  newPage_result sc = Normal tt ->
  setViewport_result sc = Normal tt ->
  goto_result sc = Normal tt ->
  screenshot_result sc = Normal shot ->
  insert_result sc = Throw e ->
  let st := snd (run_scan sc url d) in
  out st
  = (published (goto_events sc ++ screenshot_events sc) ++
     [Screenshot shot;
      ConsoleLog
        (LogEntry.mk "error" ("Failed to load page: " ++ message e) None
                     (catch_clock sc));
      ScanComplete (Error (message e))] ++
     published (close_events sc))%list /\
  screenshotBase64 st = shot /\
  db st = d /\
  closed st = [b].
Proof.
  intros La Np Sv Go Sh In. cbn zeta. rewrite run_scan_state.
  unfold final_state, final_db, inserted_row, verdict, failure_of,
    screenshot_taken, observed, closing, navigated.
  cbn [out screenshotBase64 db closed].
  rewrite La, Np, Sv, Go, Sh, In. repeat split.
Qed.

Lemma insert_failure_after_screenshot_witness :
  In (Screenshot "iVBORw0KGgoAAAANSUhEUg==")
     (out (snd (run_scan insert_failure_scan "https://example.com"
                         empty_db))) /\
  db (snd (run_scan insert_failure_scan "https://example.com" empty_db))
  = empty_db.
Proof.
  destruct (insert_failure_after_screenshot
              insert_failure_scan "https://example.com"
              "iVBORw0KGgoAAAANSUhEUg==" empty_db chromium disk_full
              eq_refl eq_refl eq_refl eq_refl eq_refl eq_refl)
    as (O & _ & D & _).
  split; [|exact D].
  rewrite O. apply in_or_app. right. left. reflexivity.
Defined.

(** ** The answers of [GET /api/history/:id] on any store *)



(** ** The list and the detail agree *)

(** X9: on a store written by the handler, every summary that
    [GET /api/history] lists can be opened: [GET /api/history/:id] with
    its id answers 200 with the same [id], [url], [timestamp] and counts,
    and the summary's [error_count] and [warn_count] are the numbers of
    entries of type [error] and [warn] among the log entries read from
    the [logs] of that answer. *)
Theorem listed_scans_can_be_opened
    (rowid_of_text : string -> option Z) (param : string)
    (d : Db) (s : Summary.t) :
  reachable d ->
  In s (listed (api_history None d)) ->
  rowid_of_text param = Some (Summary.id s) ->
  exists answer ls,
    api_history_route rowid_of_text None param d
    = {| status := 200; body := FullScan answer |} /\
    Scan.id answer = Summary.id s /\
    Scan.url answer = Summary.url s /\
    Scan.timestamp answer = Summary.timestamp s /\
    Scan.error_count answer = Summary.error_count s /\
    Scan.warn_count answer = Summary.warn_count s /\
    logs_of_json (Scan.logs answer) = Some ls /\
    Summary.error_count s
    = Z.of_nat (count_occ string_dec (map LogEntry.type ls) "error") /\
    Summary.warn_count s
    = Z.of_nat (count_occ string_dec (map LogEntry.type ls) "warn").
Proof.
  intros Hd Hs Hid. unfold api_history, db_query, listed, select_history in Hs.
  cbn [body] in Hs. apply in_map_iff in Hs. destruct Hs as (r & <- & Hr).
  apply in_firstn in Hr.
  apply (Permutation_in _ (order_by_timestamp_desc_perm (scans d))) in Hr.
  destruct (api_history_id_of_row d r Hd Hr) as (ls & ns & _ & Ec & Wc & A).
  unfold api_history_route. rewrite Hid.
  cbn [summary_of Summary.id Summary.url Summary.timestamp
       Summary.error_count Summary.warn_count].
  rewrite A. exists (full_scan r ls ns), ls.
  cbn [full_scan Scan.id Scan.url Scan.timestamp Scan.logs
       Scan.error_count Scan.warn_count].
  rewrite logs_of_json_of_logs, Ec, Wc, !count_type_count_occ.
  repeat split.
Qed.

Lemma listed_scans_can_be_opened_witness :
  reachable second_db /\
  In (summary_of example_row) (listed (api_history None second_db)) /\
  decimal_rowid "1" = Some (Summary.id (summary_of example_row)) /\
  exists answer ls,
    api_history_route decimal_rowid None "1" second_db
    = {| status := 200; body := FullScan answer |} /\
    logs_of_json (Scan.logs answer) = Some ls /\
    Summary.error_count (summary_of example_row)
    = Z.of_nat (count_occ string_dec (map LogEntry.type ls) "error").
Proof.
  assert (R : reachable second_db)
    by exact (reachable_scan second_scan "https://example.com" example_db
                (reachable_scan example_scan "https://example.com" empty_db
                                reachable_empty)).
  assert (I : In (summary_of example_row)
                 (listed (api_history None second_db)))
    by (vm_compute; right; left; reflexivity).
  assert (P : decimal_rowid "1" = Some (Summary.id (summary_of example_row)))
    by (vm_compute; reflexivity).
  split; [exact R|]. split; [exact I|]. split; [exact P|].
  destruct (listed_scans_can_be_opened decimal_rowid "1" second_db _ R I P)
    as (answer & ls & A & _ & _ & _ & _ & _ & L & Ec & _).
  exists answer, ls. repeat split; assumption.
Defined.

(** ** Failed requests as the client shows them *)

Lemma or_default_truthy (f : option string) :
  App.truthy (or_default f "Failed") = true.
Proof. destruct f as [[|c s]|]; reflexivity. Qed.

(** X10: every network entry a run makes visible that carries an
    [errorText] comes from the request-failed callback; its [errorText]
    is never empty, so the network table shows it in red as [FAILED] with
    the error line under the URL.  An entry without [errorText] gets no
    error line, and is shown as [FAILED] exactly when the engine reported
    status 0 for the response. *)
Theorem failed_requests_are_shown_failed
    (sc : Scenario) (url : string) (d : Db) (n : NetEntry.t) :
  net_seen d (snd (run_scan sc url d)) n ->
  match NetEntry.errorText n with
  | Some e =>
      e <> EmptyString /\
      App.status_text n = "FAILED" /\
      App.status_class n = "text-red-400" /\
      App.error_line n = Some e
  | None =>
      App.error_line n = None /\
      (App.status_text n = "FAILED" <-> NetEntry.status n = 0)
  end.
Proof.
  intros H. apply net_seen_captured in H.
  destruct (captured_network_origin _ _ H)
    as (_ & [(u & s & m & rt & now & _ & ->)
            |(u & m & rt & f & now & _ & ->)]).
  - cbn [response_entry NetEntry.errorText]. split; [reflexivity|].
    unfold App.status_text. cbn [NetEntry.status response_entry].
    destruct (s =? 0) eqn:Z0.
    + apply Z.eqb_eq in Z0. now split.
    + apply Z.eqb_neq in Z0. split; [|contradiction]. intros E. exfalso.
      destruct (JSONFacts.string_of_Z_head s) as (c & t & Es & D).
      rewrite Es in E. injection E as -> _. discriminate.
  - cbn [requestfailed_entry NetEntry.errorText].
    pose proof (or_default_truthy f) as T.
    repeat split.
    + intros E. rewrite E in T. discriminate.
    + unfold App.error_line.
      cbn [NetEntry.errorText requestfailed_entry]. now rewrite T.
Qed.

Lemma failed_requests_are_shown_failed_witness :
  net_seen empty_db
    (snd (run_scan example_scan "https://example.com" empty_db))
    favicon_entry /\
  App.status_text favicon_entry = "FAILED" /\
  App.error_line favicon_entry = Some "Failed".
Proof.
  assert (S : net_seen empty_db
                (snd (run_scan example_scan "https://example.com" empty_db))
                favicon_entry).
  { right; left. vm_compute. right; left. reflexivity. }
  split; [exact S|].
  destruct (failed_requests_are_shown_failed
              example_scan "https://example.com" empty_db favicon_entry S)
    as (_ & T & _ & L).
  split; [exact T | exact L].
Defined.

(** * Properties of the client

    ** The level filter *)

Lemma keeps_no_query (tl : string -> string) (f : App.Filter)
    (l : LogEntry.t) :
  App.keeps tl f EmptyString l
  = match f with
    | App.all => true
    | App.error => String.eqb (LogEntry.type l) "error"
    | App.warn => String.eqb (LogEntry.type l) "warn"
    | App.info =>
        String.eqb (LogEntry.type l) "info" ||
        String.eqb (LogEntry.type l) "log"
    end.
Proof.
  unfold App.keeps. cbn [App.truthy].
  destruct f; cbn [App.filter_eqb negb andb orb];
    destruct (String.eqb (LogEntry.type l) "error"),
             (String.eqb (LogEntry.type l) "warn"),
             (String.eqb (LogEntry.type l) "info"),
             (String.eqb (LogEntry.type l) "log"); reflexivity.
Qed.

Lemma filter_all_true {A} (f : A -> bool) (l : list A) :
  (forall x, f x = true) -> filter f l = l.
Proof.
  intros H. induction l as [|x l IH]; [reflexivity|].
  cbn [filter]. now rewrite H, IH.
Qed.

(** X11: with an empty search box, [All] shows every log; [Info] shows
    the entries of type [info] and of type [log]; an entry of any other
    type than [error], [warn], [info] and [log], such as [debug], is
    shown under [All] only; and [Errors] and [Warnings] show as many
    entries as the server counts into [error_count] and [warn_count] for
    the same logs. *)
Theorem level_filter_buckets
    (toLowerCase : string -> string) (logs : list LogEntry.t) :
  App.filteredLogs toLowerCase logs App.all EmptyString = logs /\
  (forall l,
     In l (App.filteredLogs toLowerCase logs App.info EmptyString) <->
     In l logs /\ (LogEntry.type l = "info" \/ LogEntry.type l = "log")) /\
  (forall l,
     LogEntry.type l <> "error" -> LogEntry.type l <> "warn" ->
     LogEntry.type l <> "info" -> LogEntry.type l <> "log" ->
     ~ In l (App.filteredLogs toLowerCase logs App.error EmptyString) /\
     ~ In l (App.filteredLogs toLowerCase logs App.warn EmptyString) /\
     ~ In l (App.filteredLogs toLowerCase logs App.info EmptyString)) /\
  Z.of_nat (List.length
              (App.filteredLogs toLowerCase logs App.error EmptyString))
  = count_type "error" logs /\
  Z.of_nat (List.length
              (App.filteredLogs toLowerCase logs App.warn EmptyString))
  = count_type "warn" logs.
Proof.
  unfold App.filteredLogs. split; [|split; [|split; [|split]]].
  - apply filter_all_true. intros l. apply keeps_no_query.
  - intros l. rewrite filter_In, keeps_no_query, orb_true_iff.
    rewrite !String.eqb_eq. reflexivity.
  - intros l He Hw Hi Hl. rewrite !filter_In, !keeps_no_query.
    apply String.eqb_neq in He, Hw, Hi, Hl. rewrite He, Hw, Hi, Hl.
    repeat split; intros [_ H]; discriminate.
  - unfold count_type. do 2 f_equal. apply filter_ext. intros l.
    apply keeps_no_query.
  - unfold count_type. do 2 f_equal. apply filter_ext. intros l.
    apply keeps_no_query.
Qed.

(** On [sample_logs]: six entries, two errors, and the [debug] entry is in
    none of the three buckets. *)
Example level_filter_on_sample :
  List.length (App.filteredLogs ascii_lower sample_logs App.all EmptyString)
  = 6%nat /\
  map LogEntry.text
      (App.filteredLogs ascii_lower sample_logs App.error EmptyString)
  = ["boom"; "TypeError: x is undefined"] /\
  map LogEntry.text
      (App.filteredLogs ascii_lower sample_logs App.info EmptyString)
  = ["Hello World"; "ready"] /\
  map LogEntry.text
      (App.filteredLogs ascii_lower sample_logs App.warn EmptyString)
  = ["deprecated"].
Proof. repeat split. Qed.

(** ** The search box *)

Lemma prefix_spec (q s : string) :
  String.prefix q s = true <-> exists b, s = q ++ b.
Proof.
  revert s. induction q as [|c q IH]; intros s.
  - destruct s; cbn; split; eauto.
  - destruct s as [|c' s]; cbn [String.prefix].
    + split; [discriminate | intros [b E]; discriminate].
    + destruct (ascii_dec c c') as [->|Ne].
      * rewrite IH. split; intros [b E]; exists b.
        -- cbn. now rewrite E.
        -- cbn in E. now injection E.
      * split; [discriminate|]. intros [b E]. cbn in E.
        injection E as E _. congruence.
Qed.

Lemma includes_unfold (s q : string) :
  App.includes s q
  = if String.prefix q s then true
    else match s with
         | EmptyString => false
         | String _ s' => App.includes s' q
         end.
Proof. destruct s; reflexivity. Qed.

(** [includes] finds exactly the substrings. *)
Lemma includes_spec (s q : string) :
  App.includes s q = true <-> exists a b, s = a ++ q ++ b.
Proof.
  split.
  - induction s as [|c s IH]; rewrite includes_unfold;
      destruct (String.prefix q _) eqn:P.
    + intros _. apply prefix_spec in P. destruct P as [b E].
      now exists EmptyString, b.
    + discriminate.
    + intros _. apply prefix_spec in P. destruct P as [b E].
      now exists EmptyString, b.
    + intros H. destruct (IH H) as (a & b & E).
      exists (String c a), b. cbn. now rewrite E.
  - intros (a & b & E). revert s E.
    induction a as [|c a IH]; intros s E; rewrite includes_unfold.
    + assert (P : String.prefix q s = true) by (apply prefix_spec; eauto).
      now rewrite P.
    + destruct (String.prefix q s); [reflexivity|].
      subst s. cbn [append]. now apply IH.
Qed.

Lemma filter_twice {A} (f g : A -> bool) (l : list A) :
  filter f (filter g l) = filter (fun x => f x && g x) l.
Proof.
  induction l as [|x l IH]; [reflexivity|].
  cbn [filter]. destruct (g x); cbn [filter]; rewrite IH;
    [now rewrite andb_true_r | now rewrite andb_false_r].
Qed.

(** X12: an entry is shown exactly when it passes the level filter and
    the search box is empty or its query, lower-cased, occurs in the
    lower-cased text of the entry or of one of its arguments; an entry
    without arguments is searched by its text alone.  Filtering by level
    and searching can be done in either order. *)
Theorem search_shows_matching_entries
    (toLowerCase : string -> string) (logs : list LogEntry.t)
    (f : App.Filter) (q : string) :
  (forall l,
     In l (App.filteredLogs toLowerCase logs f q) <->
     In l (App.filteredLogs toLowerCase logs f EmptyString) /\
     (q = EmptyString \/
      (exists a b,
         toLowerCase (LogEntry.text l) = a ++ toLowerCase q ++ b) \/
      (exists args arg a b,
         LogEntry.args l = Some args /\ In arg args /\
         toLowerCase arg = a ++ toLowerCase q ++ b))) /\
  App.filteredLogs toLowerCase
    (App.filteredLogs toLowerCase logs App.all q) f EmptyString
  = App.filteredLogs toLowerCase logs f q /\
  App.filteredLogs toLowerCase
    (App.filteredLogs toLowerCase logs f EmptyString) App.all q
  = App.filteredLogs toLowerCase logs f q.
Proof.
  assert (K : forall l,
             App.keeps toLowerCase f q l
             = App.keeps toLowerCase f EmptyString l &&
               App.keeps toLowerCase App.all q l).
  { intros l. rewrite keeps_no_query. unfold App.keeps.
    destruct f; cbn [App.filter_eqb negb andb orb];
      destruct (String.eqb (LogEntry.type l) "error"),
               (String.eqb (LogEntry.type l) "warn"),
               (String.eqb (LogEntry.type l) "info"),
               (String.eqb (LogEntry.type l) "log"); reflexivity. }
  assert (Q : forall l,
             App.keeps toLowerCase App.all q l = true <->
             (q = EmptyString \/
              (exists a b,
                 toLowerCase (LogEntry.text l) = a ++ toLowerCase q ++ b) \/
              (exists args arg a b,
                 LogEntry.args l = Some args /\ In arg args /\
                 toLowerCase arg = a ++ toLowerCase q ++ b))).
  { intros l. unfold App.keeps. cbn [App.filter_eqb negb andb].
    destruct q as [|c q]; cbn [App.truthy]; [split; auto|].
    set (query := toLowerCase (String c q)).
    destruct (App.includes (toLowerCase (LogEntry.text l)) query) eqn:T.
    - cbn [negb andb]. split; [|reflexivity]. intros _. right. left.
      now apply includes_spec.
    - cbn [negb andb].
      assert (NT : ~ exists a b,
                     toLowerCase (LogEntry.text l) = a ++ query ++ b).
      { intros H. apply includes_spec in H. congruence. }
      destruct (LogEntry.args l) as [args|].
      + destruct (existsb _ args) eqn:A; cbn [negb].
        * split; [|reflexivity]. intros _. right. right.
          apply existsb_exists in A. destruct A as (arg & Harg & I).
          apply includes_spec in I. destruct I as (a & b & E).
          now exists args, arg, a, b.
        * split; [discriminate|].
          intros [H|[H|(args' & arg & a & b & E & Harg & I)]];
            [discriminate | contradiction|].
          injection E as <-.
          assert (existsb (fun arg => App.includes (toLowerCase arg) query)
                          args = true).
          { apply existsb_exists. exists arg. split; [exact Harg|].
            apply includes_spec. eauto. }
          congruence.
      + cbn [negb]. split; [discriminate|].
        intros [H|[H|(args' & arg & a & b & E & _)]];
          [discriminate | contradiction | discriminate]. }
  unfold App.filteredLogs. split; [|split].
  - intros l. rewrite !filter_In, K, andb_true_iff, Q. tauto.
  - rewrite filter_twice. apply filter_ext. intros l.
    now rewrite K.
  - rewrite filter_twice. apply filter_ext. intros l.
    now rewrite K, andb_comm.
Qed.

(** Searching [BOOM] finds the [boom] entry whatever the case. *)
Example search_is_case_insensitive :
  map LogEntry.text
      (App.filteredLogs ascii_lower sample_logs App.all "BOOM")
  = ["boom"] /\
  map LogEntry.text
      (App.filteredLogs ascii_lower sample_logs App.all "jshandle")
  = ["Hello World"; "boom"] /\
  App.filteredLogs ascii_lower sample_logs App.warn "boom" = [].
Proof. repeat split. Qed.

(** ** Starting a scan *)

(** X13: [handleScan] sends [scan-url], with the URL as typed, exactly
    when the socket exists and the URL starts with [http]; nothing more
    of the URL is checked.  An empty URL is ignored in silence and any
    other URL is refused with one alert; both leave the logs, network
    entries and screenshot on display.  An accepted URL clears them and
    both buffers and marks the scan as running, also when no socket
    exists to send it on. *)
Theorem handleScan_checks_the_prefix_only (st : App.State) :
  let st' := fst (App.handleScan st) in
  let effects := snd (App.handleScan st) in
  (forall u,
     In (App.EmitScanUrl u) effects <->
     u = App.url st /\ App.socket st = true /\
     exists rest, App.url st = "http" ++ rest) /\
  ((exists text, In (App.Alert text) effects) <->
   App.url st <> EmptyString /\ String.prefix "http" (App.url st) = false) /\
  (String.prefix "http" (App.url st) = false -> st' = st) /\
  (String.prefix "http" (App.url st) = true ->
   App.logs st' = [] /\ App.networkLogs st' = [] /\
   App.screenshot st' = None /\ App.logBuffer st' = [] /\
   App.networkBuffer st' = [] /\ App.isScanning st' = true /\
   App.activeTab st' = App.console /\ App.url st' = App.url st).
Proof.
  cbn zeta. unfold App.handleScan.
  destruct (App.url st) as [|c u] eqn:U; cbn [App.truthy negb].
  - cbn [fst snd]. split; [|split; [|split]].
    + intros v. split; [intros [] | intros (_ & _ & rest & E); discriminate].
    + split; [intros [text []] | intros [H _]; congruence].
    + reflexivity.
    + discriminate.
  - destruct (String.prefix "http" (String c u)) eqn:P; cbn [negb fst snd].
    + split; [|split; [|split]].
      * intros v. destruct (App.socket st).
        -- split.
           ++ intros [E|[]]. injection E as <-.
              split; [reflexivity|]. split; [reflexivity|].
              now apply prefix_spec.
           ++ intros (-> & _ & _). now left.
        -- split; [intros [] | intros (_ & S & _); discriminate].
      * split; [|intros [_ H]; discriminate].
        intros [text H]. destruct (App.socket st);
          [destruct H as [H|[]]; discriminate | destruct H].
      * discriminate.
      * intros _. cbn [App.logs App.networkLogs App.screenshot App.logBuffer
                       App.networkBuffer App.isScanning App.activeTab
                       App.url].
        repeat split.
    + split; [|split; [|split]].
      * intros v. split; [intros [H|[]]; discriminate|].
        intros (_ & _ & rest & E).
        assert (String.prefix "http" (String c u) = true)
          by (apply prefix_spec; eauto).
        congruence.
      * split; [intros _; split; [discriminate | reflexivity]|].
        intros _. eexists. now left.
      * reflexivity.
      * discriminate.
Qed.

(** [httpx] passes the check; [HTTP://A.TEST] and a URL after a blank do
    not. *)
Example handleScan_on_odd_urls :
  snd (App.handleScan
         (App.mkState "httpx" [] [] None [] [] false App.history true))
  = [App.EmitScanUrl "httpx"] /\
  snd (App.handleScan
         (App.mkState "HTTP://A.TEST" [] [] None [] [] false App.history
                      true))
  = [App.Alert
       "Please enter a valid URL starting with http:// or https://"] /\
  snd (App.handleScan
         (App.mkState " https://a.test" [] [] None [] [] false App.history
                      true))
  = [App.Alert
       "Please enter a valid URL starting with http:// or https://"] /\
  App.handleScan
    (App.mkState EmptyString sample_logs [] None [] [] false App.history true)
  = (App.mkState EmptyString sample_logs [] None [] [] false App.history true,
     []).
Proof. repeat split. Qed.
